(** * cmdr: the option store ([Options]) and its dual representation

    A shallow embedding of the runtime configuration store of cmdr:
    the flat [entries] map, the [hierarchy] tree, [SetNx] with its
    [mergeMap]/[et] tree update, the typed accessors, the environment
    overlay and the ingestion loops [loopMap]/[loopIxMap].

    Go maps become [gmap string _]; a Go [interface{}] becomes the
    inductive [value]. Functions of Go's standard library that the store
    calls appear either as small byte-level definitions (one-byte
    [Split], [Join], [HasPrefix], slicing) or as parameters of a section
    ([strings.ToLower], [strings.ToUpper], [fmt.Sprintf "%v"],
    [strconv.Atoi], [os.LookupEnv], the yaml codec). *)

From Stdlib Require Import ZArith Ascii String List.
From stdpp Require Import gmap strings list fin_maps sorting.

Set Warnings "-register-all".
Open Scope string_scope.

(** ** Strings *)

Module Strings.

(** [strings.Split(s, sep)] for a one-byte separator. The result is never
    empty: for the empty string it is the list of the empty string alone. *)
Fixpoint Split (sep : ascii) (s : string) : list string :=
  match s with
  | EmptyString => [EmptyString]
  | String c s' =>
      if Ascii.eqb c sep then EmptyString :: Split sep s'
      else match Split sep s' with
           | x :: xs => String c x :: xs
           | [] => [String c EmptyString]
           end
  end.

(** [strings.Join(l, sep)] for a one-byte separator. *)
Fixpoint Join (sep : ascii) (l : list string) : string :=
  match l with
  | [] => EmptyString
  | [x] => x
  | x :: xs => x ++ String sep (Join sep xs)
  end.

(** [strings.HasPrefix(s, p)]. *)
Fixpoint HasPrefix (s p : string) : bool :=
  match p, s with
  | EmptyString, _ => true
  | String a p', String b s' => Ascii.eqb a b && HasPrefix s' p'
  | String _ _, EmptyString => false
  end.

(** The slice expression [s[n:]]: a run-time panic ([None]) when [n]
    exceeds [len(s)]. *)
Fixpoint slice_from (n : nat) (s : string) : option string :=
  match n, s with
  | O, _ => Some s
  | S n', String _ s' => slice_from n' s'
  | S _, EmptyString => None
  end.

(** [strings.ReplaceAll(s, old, new)] where [old] and [new] are one byte
    each. *)
Fixpoint ReplaceAll (s : string) (old new : ascii) : string :=
  match s with
  | EmptyString => EmptyString
  | String c s' =>
      String (if Ascii.eqb c old then new else c) (ReplaceAll s' old new)
  end.

(** A byte occurs in a string. *)
Fixpoint contains (c : ascii) (s : string) : bool :=
  match s with
  | EmptyString => false
  | String a s' => Ascii.eqb a c || contains c s'
  end.

(** Case mapping of one ASCII byte; other bytes are kept. *)
Definition lower_byte (c : ascii) : ascii :=
  let n := nat_of_ascii c in
  if (65 <=? n)%nat && (n <=? 90)%nat then ascii_of_nat (n + 32) else c.

Definition upper_byte (c : ascii) : ascii :=
  let n := nat_of_ascii c in
  if (97 <=? n)%nat && (n <=? 122)%nat then ascii_of_nat (n - 32) else c.

Fixpoint map_bytes (f : ascii → ascii) (s : string) : string :=
  match s with
  | EmptyString => EmptyString
  | String c s' => String (f c) (map_bytes f s')
  end.

(** What [strings.ToLower] and [strings.ToUpper] do on a string of
    ASCII bytes. *)
Definition ascii_lower : string → string := map_bytes lower_byte.
Definition ascii_upper : string → string := map_bytes upper_byte.

Fixpoint is_ascii (s : string) : bool :=
  match s with
  | EmptyString => true
  | String c s' => (nat_of_ascii c <? 128)%nat && is_ascii s'
  end.

End Strings.

Import Strings.

Definition dot : ascii := "."%char.
Definition comma : ascii := ","%char.
Definition underscore : ascii := "_"%char.
Definition dash : ascii := "-"%char.

(** ** Values *)

(** What an [interface{}] of the store can hold. [VMap] is
    [map[string]interface{}], the node type of the hierarchy;
    [VIxMap] is [map[interface{}]interface{}] as a decoder hands it
    over, its pairs in the order the [range] loop visits them. *)
Inductive value : Type :=
  | VNil
  | VBool (b : bool)
  | VInt (n : Z)
  | VStr (s : string)
  | VStrs (l : list string)
  | VInts (l : list Z)
  | VBytes (bs : string)
  | VList (l : list value)
  | VMap (m : gmap string value)
  | VIxMap (kvs : list (value * value)).

(** The type assertion [v.(map[string]interface{})]. *)
Definition as_map (v : value) : option (gmap string value) :=
  match v with VMap m => Some m | _ => None end.

Definition is_map (v : value) : bool :=
  match v with VMap _ => true | _ => false end.

(** ** The store *)

Record Options : Type := mkOptions {
  entries : gmap string value;
  hierarchy : gmap string value
}.

Definition NewOptions : Options := mkOptions ∅ ∅.

Definition NewOptionsWith (es : gmap string value) : Options := mkOptions es ∅.

(** [Get]: a missing key reads as the nil interface. *)
Definition Get (s : Options) (key : string) : value :=
  match entries s !! key with Some v => v | None => VNil end.

(** [getMap(vp, key, remains...)]; the result [None] is Go's nil map. *)
Fixpoint getMap (vp : gmap string value) (key : string) (remains : list string)
  : option (gmap string value) :=
  match remains with
  | r :: rs =>
      match vp !! key with
      | Some (VMap vm) => getMap vm r rs
      | _ => None
      end
  | [] =>
      match vp !! key with
      | Some (VMap vm) => Some vm
      | Some _ => Some vp
      | None => None
      end
  end.

Definition getMapNoLock (s : Options) (key : string) : option (gmap string value) :=
  match Split dot key with
  | a0 :: rest => getMap (hierarchy s) a0 rest
  | [] => None
  end.

Definition GetMap (s : Options) (key : string) : option (gmap string value) :=
  getMapNoLock s key.

(** [mergeMap(m, key, val)]. The loop over [vm] is a fold; the keys of a
    map are distinct, so the order of the fold does not matter (see
    [mergeMap_comm]). *)
Fixpoint mergeMap (m : gmap string value) (key : string) (val : value) {struct val}
  : gmap string value :=
  match m !! key with
  | Some (VMap zm) =>
      match val with
      | VMap vm =>
          <[key := VMap (map_fold (fun k v zm' => mergeMap zm' k v) zm vm)]> m
      | _ => <[key := val]> m
      end
  | _ => <[key := val]> m
  end.

(** [et(keys, ix, val)], on the suffix [keys[ix:]]. *)
Fixpoint et (keys : list string) (val : value) : value :=
  match keys with
  | [] => val
  | k :: ks => VMap {[k := et ks val]}
  end.

(** [SetNx]: the nil guard, then the store into the flat map and the
    merge into the hierarchy. The maps that [et] allocates are fresh and
    reachable from the hierarchy only, so the in-place updates of
    [mergeMap] are updates of the hierarchy alone. A [val] that is itself
    a [map[string]interface{}] would be shared between the flat map and
    the hierarchy; the facts about sequences of calls below are stated
    for values that are not maps, where nothing is shared. *)
Definition SetNx (key : string) (val : value) (s : Options) : Options :=
  match val, getMapNoLock s key with
  | VNil, Some _ => s
  | _, _ =>
      match Split dot key with
      | a0 :: rest =>
          mkOptions (<[key := val]> (entries s))
                    (mergeMap (hierarchy s) a0 (et rest val))
      | [] => s
      end
  end.

(** [Set]: the key is wrapped with the prefix first. [RxxtPrefix] is a
    package variable declared outside the files at hand; it is a
    parameter here. *)
Definition wrapWithRxxtPrefix (RxxtPrefix : list string) (key : string) : string :=
  match RxxtPrefix with
  | [] => key
  | _ =>
      let p := Join dot RxxtPrefix in
      match key with
      | EmptyString => p
      | _ => p ++ String dot key
      end
  end.

Definition Set_ (RxxtPrefix : list string) (key : string) (val : value)
    (s : Options) : Options :=
  SetNx (wrapWithRxxtPrefix RxxtPrefix key) val s.

Definition GetMapR (RxxtPrefix : list string) (s : Options) (key : string)
  : option (gmap string value) :=
  GetMap s (wrapWithRxxtPrefix RxxtPrefix key).

(** [Reset]: the entries are dropped and a fresh map installed; the
    hierarchy field is not assigned. The pause between the two
    assignments happens under the write lock and has no counterpart
    here. *)
Definition Reset (s : Options) : Options :=
  mkOptions ∅ (hierarchy s).

Definition GetHierarchyList (s : Options) : gmap string value := hierarchy s.


(** ** Typed accessors *)

Section Accessors.

(** [strings.ToLower], [fmt.Sprintf("%v", v)], [strconv.Atoi] (an error is
    [None]) and [strconv.Itoa]. *)
Variable ToLower : string → string.
Variable Sprint : value → string.
Variable Atoi : string → option Z.
Variable Itoa : Z → string.

(** [GetString]: a string is returned as it is; the nil interface and a
    missing key give the empty string; anything else is printed. *)
Definition GetString (s : Options) (key : string) : string :=
  match entries s !! key with
  | Some (VStr x) => x
  | Some VNil => EmptyString
  | Some v => Sprint v
  | None => EmptyString
  end.

Definition truthy : list string := ["1"; "y"; "t"; "yes"; "true"; "ok"; "on"].

Definition GetBool (s : Options) (key : string) : bool :=
  existsb (String.eqb (ToLower (GetString s key))) truthy.

Definition stringSliceToIntSlice (l : list string) : list Z := omap Atoi l.

(** The [switch] on the kind of the stored value in [GetStringSlice]. *)
Definition stringSliceOf (v : value) : list string :=
  match v with
  | VStr x => Split comma x
  | VStrs r => r
  | VInts ri => map Itoa ri
  | VBytes bs => Split comma bs
  | VList l => map Sprint l
  | _ => Split comma (Sprint v)
  end.

Definition GetStringSlice (s : Options) (key : string) : list string :=
  match entries s !! key with
  | Some v => stringSliceOf v
  | None => []
  end.

(** The same [switch] in [GetIntSlice]. *)
Definition intSliceOf (v : value) : list Z :=
  match v with
  | VStr x => stringSliceToIntSlice (Split comma x)
  | VStrs r => stringSliceToIntSlice r
  | VInts ri => ri
  | VBytes bs => stringSliceToIntSlice (Split comma bs)
  | VList l => stringSliceToIntSlice (map Sprint l)
  | _ => stringSliceToIntSlice (Split comma (Sprint v))
  end.

Definition GetIntSlice (s : Options) (key : string) : list Z :=
  match entries s !! key with
  | Some v => intSliceOf v
  | None => []
  end.

(** The slice rule as the documentation words it: a list is taken
    element by element, a string is split on the comma, any other scalar
    is printed and then split. *)
Definition is_list (v : value) : bool :=
  match v with
  | VStrs _ | VInts _ | VBytes _ | VList _ => true
  | _ => false
  end.

(** The bytes of a [[]byte], one value each. *)
Fixpoint bytes_of (bs : string) : list Z :=
  match bs with
  | EmptyString => []
  | String c bs' => Z.of_nat (nat_of_ascii c) :: bytes_of bs'
  end.

Definition doc_stringSliceOf (v : value) : list string :=
  match v with
  | VStrs r => r
  | VInts ri => map Itoa ri
  | VBytes bs => map Itoa (bytes_of bs)
  | VList l => map Sprint l
  | VStr x => Split comma x
  | _ => Split comma (Sprint v)
  end.

Definition doc_intSliceOf (v : value) : list Z :=
  match v with
  | VStrs r => stringSliceToIntSlice r
  | VInts ri => ri
  | VBytes bs => bytes_of bs
  | VList l => stringSliceToIntSlice (map Sprint l)
  | VStr x => stringSliceToIntSlice (Split comma x)
  | _ => stringSliceToIntSlice (Split comma (Sprint v))
  end.

(** ** Ingestion of decoded documents *)

Definition mx (pre k : string) : string :=
  match pre with
  | EmptyString => k
  | _ => pre ++ String dot k
  end.

Definition mxIx (pre : string) (k : value) : string :=
  match pre with
  | EmptyString => Sprint k
  | _ => pre ++ String dot (Sprint k)
  end.

(** One turn of the loop of [loopIxMap], at the full key [kdot] of the
    pair: a nested [map[interface{}]interface{}] is entered, anything
    else is stored. The error result of the Go functions is never set
    and is left out. *)
Fixpoint loopIxMap_at (kdot : string) (v : value) (s : Options) {struct v} : Options :=
  match v with
  | VIxMap vm =>
      (fix go (l : list (value * value)) (s : Options) {struct l} : Options :=
         match l with
         | [] => s
         | (k, v') :: l' => go l' (loopIxMap_at (mxIx kdot k) v' s)
         end) vm s
  | _ => SetNx kdot v s
  end.

Definition loopIxMap (kdot : string) (m : list (value * value)) (s : Options) : Options :=
  fold_left (fun s kv => loopIxMap_at (mxIx kdot kv.1) kv.2 s) m s.

(** One turn of the loop of [loopMap], at the full key [kdot] of the
    pair. The [range] over a Go map visits the keys in an unspecified
    order; here it is the order of [map_fold]. *)
Fixpoint loopMap_at (kdot : string) (v : value) (s : Options) {struct v} : Options :=
  match v with
  | VIxMap vm => loopIxMap kdot vm s
  | VMap vm => map_fold (fun k v' s' => loopMap_at (mx kdot k) v' s') s vm
  | _ => SetNx kdot v s
  end.

Definition loopMap (kdot : string) (m : gmap string value) (s : Options) : Options :=
  map_fold (fun k v s' => loopMap_at (mx kdot k) v s') s m.

Definition loopMapMap (kdot : string) (m : gmap string (gmap string value))
    (s : Options) : Options :=
  map_fold (fun k v s' => loopMap (mx kdot k) v s') s m.

End Accessors.

(** ** Environment overlay *)

Section Env.

(** [strings.ToUpper], the package variables [EnvPrefix] and
    [RxxtPrefix], and [os.LookupEnv]. *)
Variable ToUpper : string → string.
Variable EnvPrefix RxxtPrefix : list string.
Variable LookupEnv : string → option string.

Definition envKey (key : string) : string :=
  let key := ReplaceAll key dot underscore in
  let key := ReplaceAll key dash underscore in
  Join underscore (EnvPrefix ++ [ToUpper key]).

(** The body of the loop of [buildAutomaticEnv] for one key. The slice
    [key[len(p)+1:]] panics when [key] is exactly [p]: [None]. *)
Definition overlayKey (key : string) (s : Options) : option Options :=
  let p := Join dot RxxtPrefix in
  match LookupEnv (envKey key) with
  | Some v =>
      if HasPrefix key p then
        match slice_from (String.length p + 1) key with
        | Some k' => Some (Set_ RxxtPrefix k' (VStr v) s)
        | None => None
        end
      else Some (Set_ RxxtPrefix key (VStr v) s)
  | None => Some s
  end.

(** [buildAutomaticEnv], along the sequence [visit] of keys that the
    [range] over the entries yields. *)
Fixpoint buildAutomaticEnv (visit : list string) (s : Options) : option Options :=
  match visit with
  | [] => Some s
  | key :: rest =>
      match overlayKey key s with
      | Some s' => buildAutomaticEnv rest s'
      | None => None
      end
  end.

(** The name of the variable as the documentation derives it: every
    '.' and '-' becomes '_', the result is upper-cased and joined to the
    prefix segments with '_'. *)
Fixpoint dots_dashes_to_underscores (s : string) : string :=
  match s with
  | EmptyString => EmptyString
  | String c s' =>
      String (if Ascii.eqb c dot || Ascii.eqb c dash then underscore else c)
             (dots_dashes_to_underscores s')
  end.

Definition doc_envName (key : string) : string :=
  Join underscore (EnvPrefix ++ [ToUpper (dots_dashes_to_underscores key)]).

End Env.

(** Stand-ins for the library functions, for examples that do not reach
    them. *)
Definition Sprint0 : value → string := fun _ => EmptyString.
Definition Itoa0 : Z → string := fun _ => EmptyString.
Definition Atoi0 : string → option Z := fun _ => None.

(** A process environment with one variable. *)
Definition env_one (name val : string) (n : string) : option string :=
  if String.eqb n name then Some val else None.

(** ** Sections *)

Section Yaml.

(** [yaml.Marshal] and [yaml.Unmarshal]; the holder is whatever the
    caller passes by reference. *)
Variables (Holder Bytes Err : Type).
Variable Marshal : gmap string value → Bytes + Err.
Variable Unmarshal : Bytes → Holder → Holder * option Err.

Definition GetSectionFrom (RxxtPrefix : list string) (s : Options)
    (sectionKeyPath : string) (holder : Holder) : Holder * option Err :=
  match GetMapR RxxtPrefix s sectionKeyPath with
  | Some fObj =>
      match Marshal fObj with
      | inl b => Unmarshal b holder
      | inr e => (holder, Some e)
      end
  | None => (holder, None)
  end.

End Yaml.

(** ** Descending the hierarchy *)

(** The node reached from [v] along the segments [p]. *)
Fixpoint descend (v : value) (p : list string) : option value :=
  match p with
  | [] => Some v
  | k :: ks =>
      match v with
      | VMap m =>
          match m !! k with
          | Some v' => descend v' ks
          | None => None
          end
      | _ => None
      end
  end.

Definition tree_at (s : Options) (p : list string) : option value :=
  descend (VMap (hierarchy s)) p.

(** A leaf of the hierarchy: a node that is not a map. *)
Definition leaf_at (s : Options) (p : list string) : option value :=
  match tree_at s p with
  | Some v => if is_map v then None else Some v
  | None => None
  end.

(** A sequence of [Set] and [SetNx] calls. *)
Inductive call : Type :=
  | CallSet (key : string) (val : value)
  | CallSetNx (key : string) (val : value).

Definition call_val (c : call) : value :=
  match c with CallSet _ v | CallSetNx _ v => v end.

Definition run_call (RxxtPrefix : list string) (c : call) (s : Options) : Options :=
  match c with
  | CallSet k v => Set_ RxxtPrefix k v s
  | CallSetNx k v => SetNx k v s
  end.

Definition run_calls (RxxtPrefix : list string) (cs : list call) (s : Options)
  : Options :=
  fold_left (fun s c => run_call RxxtPrefix c s) cs s.

(** Flat-to-tree half of the consistency statement. *)
Definition flat_in_tree (s : Options) : Prop :=
  ∀ key v, entries s !! key = Some v → tree_at s (Split dot key) = Some v.

(** Tree-to-flat half: a leaf has its flat key, the joined path, and
    that key leads back to the leaf. *)
Definition tree_in_flat (s : Options) : Prop :=
  ∀ p v, leaf_at s p = Some v →
    Split dot (Join dot p) = p ∧ entries s !! Join dot p = Some v.

(** A key below the dotted prefix: [p.r] with [r] not empty. *)
Definition under_prefix (RxxtPrefix : list string) (key : string) : Prop :=
  ∃ r, r ≠ EmptyString ∧ key = Join dot RxxtPrefix ++ String dot r.

Definition overlapping (k1 k2 : string) : Prop :=
  k1 ≠ k2 ∧ (Split dot k1 `prefix_of` Split dot k2 ∨ Split dot k2 `prefix_of` Split dot k1).

(** The flat-to-tree half as far as it holds: a flat key is found in the
    tree unless another flat key continues it or is continued by it. *)
Definition flat_in_tree_unless_overlapped (s : Options) : Prop :=
  ∀ key v, entries s !! key = Some v →
    tree_at s (Split dot key) = Some v ∨
    ∃ key', key' ∈ dom (entries s) ∧ overlapping key key'.

Definition leaf_calls (cs : list call) : Prop :=
  Forall (fun c => is_map (call_val c) = false) cs.

(** ** The tree update, written directly *)

(** The map below key [k], empty when [k] is missing or holds a leaf. *)
Definition child (m : gmap string value) (k : string) : gmap string value :=
  match m !! k with
  | Some (VMap zm) => zm
  | _ => ∅
  end.

(** Storing [val] at the end of a path: maps on the way are kept and
    extended, anything else on the way is replaced. For a [val] that is
    not a map this is what [mergeMap] does with the chain built by [et]
    (lemma [mergeMap_et]). *)
Fixpoint insert_path (p : list string) (val : value) (m : gmap string value)
  : gmap string value :=
  match p with
  | [] => m
  | [k] => <[k := val]> m
  | k :: ks => <[k := VMap (insert_path ks val (child m k))]> m
  end.

(** The segments that the prefix puts in front of a key. *)
Definition prefix_path (RxxtPrefix : list string) : list string :=
  match RxxtPrefix with
  | [] => []
  | _ => Split dot (Join dot RxxtPrefix)
  end.

(** The leaf of a document below [v] at path [q]. *)
Definition leaf_of (v : value) (q : list string) : option value :=
  match descend v q with
  | Some x => if is_map x then None else Some x
  | None => None
  end.

Definition is_ixmap (v : value) : bool :=
  match v with VIxMap _ => true | _ => false end.

Definition dotfree (k : string) : Prop := contains dot k = false.

(** Two paths of which neither continues the other. *)
Definition apart (p q : list string) : Prop :=
  ¬ p `prefix_of` q ∧ ¬ q `prefix_of` p.

(** A document of nested string-keyed maps that ingestion takes apart
    into one flat key per leaf: no key contains a dot, no leaf is a map
    with arbitrary keys, and the empty key at the top does not name a
    map. *)
Definition plain_doc (d : gmap string value) : Prop :=
  (∀ q x, descend (VMap d) q = Some x → Forall dotfree q ∧ is_ixmap x = false) ∧
  (∀ m, d !! EmptyString ≠ Some (VMap m)).

(** The calls that [loopMap] makes for the value [v] at path [p], last
    call first. *)
Fixpoint leaves_at (p : list string) (v : value) {struct v}
  : list (list string * value) :=
  match v with
  | VMap vm => map_fold (fun k v' acc => (leaves_at (p ++ [k]) v' ++ acc)%list) [] vm
  | _ => [(p, v)]
  end.

Definition SetNx_path (pv : list string * value) (s : Options) : Options :=
  SetNx (Join dot pv.1) pv.2 s.

(** The depth of nesting of maps, for induction over documents. *)
Fixpoint vsize (v : value) : nat :=
  match v with
  | VMap m => S (map_fold (fun _ v' n => vsize v' + n) 0 m)
  | _ => 0
  end.

(** What [loopMap] needs of the value [v] met at path [p]: no map with
    arbitrary keys below, and no map at the path made of the empty
    segment alone ([mx] would drop that segment). *)
Definition plain_at (p : list string) (v : value) : Prop :=
  ∀ q x, descend v q = Some x →
    is_ixmap x = false ∧ (is_map x = true → (p ++ q)%list ≠ [EmptyString]).

(** A list of calls that ingestion can make without one call disturbing
    another: paths that [Join] and [Split] take to each other, values
    that are not maps, and no path continued by another one. *)
Definition separate_calls (L : list (list string * value)) : Prop :=
  (∀ p v, (p, v) ∈ L → p ≠ [] ∧ Forall dotfree p ∧ is_map v = false) ∧
  (∀ p1 v1 p2 v2, (p1, v1) ∈ L → (p2, v2) ∈ L → p1 `prefix_of` p2 →
                  p1 = p2 ∧ v1 = v2).

(** The store holds exactly the calls of [L]: flat map and leaves of the
    hierarchy agree, the leaves are the calls, and every node of the
    hierarchy lies on the way to one of them. *)
Definition holds_exactly (L : list (list string * value)) (s : Options) : Prop :=
  (∀ key, entries s !! key = leaf_at s (Split dot key)) ∧
  (∀ r x, leaf_at s r = Some x ↔ (r, x) ∈ L) ∧
  (∀ r, is_Some (tree_at s r) → r = [] ∨ ∃ p x, (p, x) ∈ L ∧ r `prefix_of` p).

(** ** Further accessors and helpers *)

(** [GetR]: [Get] on the wrapped key. *)
Definition GetR (RxxtPrefix : list string) (s : Options) (key : string) : value :=
  Get s (wrapWithRxxtPrefix RxxtPrefix key).

(** [getMap] on a path given as one list; the empty path does not occur
    ([getMapNoLock] guards it). *)
Definition getMap_path (vp : gmap string value) (p : list string)
  : option (gmap string value) :=
  match p with
  | [] => None
  | key :: remains => getMap vp key remains
  end.

(** ** String helpers of package tool *)

Module Tool.

(** [stripPrefix(s, p)]: the slice [s[len(p):]] is taken only under
    [strings.HasPrefix]; [None] would be the panic of a slice out of
    range. *)
Definition stripPrefix (s p : string) : option string :=
  if HasPrefix s p then slice_from (String.length p) s else Some s.

(** A rune, and the rune of an ASCII character. *)
Definition rune : Type := Z.

Definition rune_of (c : ascii) : rune := Z.of_nat (nat_of_ascii c).

(** The [case] lists of [soundex], each given as the string of its
    characters. *)
Definition in_case (ch : rune) (chars : string) : bool :=
  existsb (Z.eqb ch) (map rune_of (list_ascii_of_string chars)).

(** The first loop of [soundex]: the runes '-', '~' and '+' in front are
    passed over; the first other rune goes to the target, and the index
    stays on it. The result is the target and the runes from the index
    on. *)
Fixpoint soundex_first (src : list rune) : list rune * list rune :=
  match src with
  | [] => ([], [])
  | ch :: rest =>
      if in_case ch "-~+" then soundex_first rest else ([ch], ch :: rest)
  end.

(** One turn of the second loop: what the [switch] appends. *)
Definition soundex_code (ch : rune) : list rune :=
  if in_case ch "aeiouyhw" then []
  else if in_case ch "bfpv" then [rune_of "1"]
  else if in_case ch "cgjkqsxz" then [rune_of "2"]
  else if in_case ch "dt" then [rune_of "3"]
  else if in_case ch "l" then [rune_of "4"]
  else if in_case ch "mn" then [rune_of "5"]
  else if in_case ch "r" then [rune_of "6"]
  else [].

(** [soundex], on the runes of its argument ([[]rune(s)]); the result is
    the runes of the string returned. *)
Definition soundex (src : list rune) : list rune :=
  let '(tgt, rest) := soundex_first src in
  fold_left (fun tgt ch => (tgt ++ soundex_code ch)%list) rest tgt.

Definition is_digit (c : ascii) : bool :=
  let n := nat_of_ascii c in (48 <=? n)%nat && (n <=? 57)%nat.

Definition is_alnum (c : ascii) : bool :=
  let n := nat_of_ascii c in
  is_digit c || ((65 <=? n)%nat && (n <=? 90)%nat)
             || ((97 <=? n)%nat && (n <=? 122)%nat).

Definition newline : ascii := ascii_of_nat 10.

Fixpoint all_alnum (s : string) : bool :=
  match s with
  | EmptyString => true
  | String c s' => is_alnum c && all_alnum s'
  end.

(** The longest beginning of [s] made of [0-9A-Za-z], and what
    follows. *)
Fixpoint span_alnum (s : string) : string * string :=
  match s with
  | EmptyString => (EmptyString, EmptyString)
  | String c s' =>
      if is_alnum c then
        let '(a, rest) := span_alnum s' in (String c a, rest)
      else (EmptyString, s)
  end.

(** [xre.MatchString(s)] for [xre = ^[0-9A-Za-z]+\.(.+)$]: one or more
    letters or digits from the start, a dot, and then at least one more
    byte up to the end of the text, none of them a newline (the dot of a
    regular expression does not match it). *)
Definition xre_MatchString (s : string) : bool :=
  match span_alnum s with
  | (String _ _, String c r) =>
      Ascii.eqb c dot && negb (String.eqb r EmptyString) && negb (contains newline r)
  | _ => false
  end.

Definition HasOrderPrefix (s : string) : bool := xre_MatchString s.

(** [strings.Index(s, ".")]: the place of the first dot, -1 without
    one. *)
Fixpoint Index_dot (s : string) : Z :=
  match s with
  | EmptyString => (-1)%Z
  | String c s' =>
      if Ascii.eqb c dot then 0%Z
      else let i := Index_dot s' in if (i <? 0)%Z then (-1)%Z else (i + 1)%Z
  end.

(** The slice [s[n:]] for an [int] index: a negative index or one beyond
    the length panics. *)
Definition slice_from_int (n : Z) (s : string) : option string :=
  if (n <? 0)%Z then None else slice_from (Z.to_nat n) s.

Definition StripOrderPrefix (s : string) : option string :=
  if xre_MatchString s then slice_from_int (Index_dot s + 1) s else Some s.

(** [IsDigitHeavy]: [^\d+$], one or more ASCII digits and nothing
    else. *)
Fixpoint all_digits (s : string) : bool :=
  match s with
  | EmptyString => true
  | String c s' => is_digit c && all_digits s'
  end.

Definition IsDigitHeavy (s : string) : bool :=
  negb (String.eqb s EmptyString) && all_digits s.

End Tool.

(** ** Layout helpers of the help screen *)

Module Print.

(** [aSection]; a [bytes.Buffer] is the string it holds. *)
Record aSection : Type := mkSection {
  title : string;
  bufLL : list string;
  bufLR : list string;
  maxL : Z;
  maxR : Z
}.

Record aGroupedSections : Type := mkGroupedSections {
  gtitle : string;
  sections : list aSection
}.

Definition findMaxL (s1 : list aSection) (maxL0 : Z) : Z :=
  fold_left (fun m s => if (maxL s >? m)%Z then maxL s else m) s1 maxL0.

Definition findMaxL2 (s2 : list aGroupedSections) (maxL0 : Z) : Z :=
  fold_left
    (fun m s1 => fold_left (fun m s => if (maxL s >? m)%Z then maxL s else m)
                           (sections s1) m)
    s2 maxL0.

(** The order of [sort.Strings], byte by byte. *)
Definition string_le (a b : string) : Prop := String.leb a b = true.

#[global] Instance string_le_dec (a b : string) : Decision (string_le a b).
Proof. unfold string_le. apply _. Defined.

(** [sort.Strings]: the sorted arrangement of the list. *)
Definition sortStrings (l : list string) : list string := merge_sort string_le l.

Section SortedKeys.
Context {A : Type}.
(** The name of the group without a name, a constant declared
    elsewhere. *)
Variable UnsortedGroup : string.

(** The keys in the order in which [range] yields them: here the order of
    [map_to_list]; the sort that follows makes the order immaterial. *)
Definition range_keys (m : gmap string A) : list string := (map_to_list m).*1.

Definition getSortedKeysFromCmdGroupedMap (m : gmap string A) : list string :=
  UnsortedGroup ::
  sortStrings (filter (fun k => k ≠ UnsortedGroup) (range_keys m)).

Definition getSortedKeysFromCmdMap (groups : gmap string A) : list string :=
  sortStrings (range_keys groups).

End SortedKeys.

End Print.

(** ** Walking the command tree *)

Module Walk.

(** A command, as far as walking goes: its sub-commands. The other
    fields are in [payload]. *)
Inductive Command (P : Type) : Type :=
  | mkCommand (payload : P) (SubCommands : list (Command P)).

Arguments mkCommand {P} payload SubCommands.

Definition SubCommands {P : Type} (c : Command P) : list (Command P) :=
  match c with mkCommand _ subs => subs end.

Section Walking.
Context {P St Err : Type}.
(** The callback: it may change the state it closes over and may return
    an error. *)
Variable walk : Command P → Z → St → St * option Err.

Fixpoint walkFromCommand (cmd : Command P) (index : Z) (st : St) {struct cmd}
  : St * option Err :=
  match walk cmd index st with
  | (st1, Some e) => (st1, Some e)
  | (st1, None) =>
      match cmd with
      | mkCommand _ subs =>
          (fix loop (ccs : list (Command P)) (ix : Z) (st : St) {struct ccs}
             : St * option Err :=
             match ccs with
             | [] => (st, None)
             | cc :: rest =>
                 match walkFromCommand cc ix st with
                 | (st2, Some e) => (st2, Some e)
                 | (st2, None) => loop rest (ix + 1)%Z st2
                 end
             end) subs 0%Z st1
      end
  end.

Definition WalkAllCommands (rootCommand : Command P) (st : St) : St * option Err :=
  walkFromCommand rootCommand 0%Z st.

(** Calling [walk] on a list of commands with their indices, one after
    the other, up to the first error. *)
Fixpoint walk_each (l : list (Command P * Z)) (st : St) : St * option Err :=
  match l with
  | [] => (st, None)
  | (c, ix) :: rest =>
      match walk c ix st with
      | (st1, Some e) => (st1, Some e)
      | (st1, None) => walk_each rest st1
      end
  end.

End Walking.

(** A command before its sub-commands, each sub-command with its place
    among its siblings, and each followed by its own sub-commands. *)
Fixpoint preorder {P : Type} (cmd : Command P) (index : Z) {struct cmd}
  : list (Command P * Z) :=
  (cmd, index) ::
  match cmd with
  | mkCommand _ subs =>
      (fix go (ccs : list (Command P)) (ix : Z) {struct ccs} : list (Command P * Z) :=
         match ccs with
         | [] => []
         | cc :: rest => (preorder cc ix ++ go rest (ix + 1)%Z)%list
         end) subs 0%Z
  end.

End Walk.

(** * Properties *)

(** ** Facts about [Split] and [Join] *)

Section SplitJoin.
Variable sep : ascii.

Lemma Split_not_nil s : Split sep s ≠ [].
Proof.
  destruct s as [|c s]; simpl; [discriminate|].
  destruct (Ascii.eqb c sep); [discriminate|].
  destruct (Split sep s); discriminate.
Qed.

Lemma Split_String c s :
  Split sep (String c s) =
  if Ascii.eqb c sep then EmptyString :: Split sep s
  else match Split sep s with
       | x :: xs => String c x :: xs
       | [] => [String c EmptyString]
       end.
Proof. reflexivity. Qed.

Lemma Join_cons x y l : Join sep (x :: y :: l) = x ++ String sep (Join sep (y :: l)).
Proof. reflexivity. Qed.

Lemma Join_Split s : Join sep (Split sep s) = s.
Proof.
  induction s as [|c s IH]; [reflexivity|].
  rewrite Split_String.
  pose proof (Split_not_nil s) as Hn.
  destruct (Split sep s) as [|y l]; [congruence|].
  destruct (Ascii.eqb_spec c sep) as [->|Hne].
  - rewrite Join_cons, IH. reflexivity.
  - destruct l as [|z l].
    + simpl in *. by rewrite IH.
    + rewrite <- IH. reflexivity.
Qed.

Lemma Split_inj a b : Split sep a = Split sep b → a = b.
Proof. intros H. rewrite <- (Join_Split a), <- (Join_Split b). by rewrite H. Qed.

Lemma Split_segments s : Forall (fun x => contains sep x = false) (Split sep s).
Proof.
  induction s as [|c s IH]; [by repeat constructor|].
  rewrite Split_String.
  destruct (Ascii.eqb_spec c sep) as [->|Hne]; [by constructor|].
  pose proof (Split_not_nil s) as Hn.
  destruct (Split sep s) as [|y l]; [congruence|].
  inversion IH; subst. constructor; [|done].
  simpl. by destruct (Ascii.eqb_spec c sep).
Qed.

Lemma Split_segment x : contains sep x = false → Split sep x = [x].
Proof.
  induction x as [|c x IH]; [done|].
  rewrite Split_String. simpl.
  destruct (Ascii.eqb_spec c sep) as [->|Hne]; simpl; [done|].
  intros H. by rewrite (IH H).
Qed.

Lemma Split_app x s :
  contains sep x = false → Split sep (x ++ String sep s) = x :: Split sep s.
Proof.
  induction x as [|c x IH].
  - intros _. simpl. by rewrite Ascii.eqb_refl.
  - simpl. destruct (Ascii.eqb_spec c sep) as [->|Hne]; simpl; [done|].
    intros H. by rewrite (IH H).
Qed.

Lemma Split_Join l :
  l ≠ [] → Forall (fun x => contains sep x = false) l → Split sep (Join sep l) = l.
Proof.
  induction l as [|x l IH]; [done|]. intros _ Hall.
  inversion Hall as [|? ? Hx Hl]; subst.
  destruct l as [|y l].
  - simpl. by apply Split_segment.
  - rewrite Join_cons, Split_app by done. f_equal. by apply IH.
Qed.

End SplitJoin.

(** ** Reset *)

(** C8. After [Reset] the flat map is empty, [Get] answers nil for every
    key, and the hierarchy is the one from before the call. *)
Theorem Reset_frame (s : Options) :
  entries (Reset s) = ∅ ∧
  (∀ key, Get (Reset s) key = VNil) ∧
  hierarchy (Reset s) = hierarchy s ∧
  GetHierarchyList (Reset s) = GetHierarchyList s.
Proof.
  split; [reflexivity|]. split; [|split; reflexivity].
  intros key. unfold Get, Reset. simpl. by rewrite lookup_empty.
Qed.

(** ** Sections *)

Section YamlFacts.
Context {Holder Bytes Err : Type}.
Variable Marshal : gmap string value → Bytes + Err.
Variable Unmarshal : Bytes → Holder → Holder * option Err.

(** C10. When the lookup of the section finds no map, [GetSectionFrom]
    reports no error and hands the holder back as it was. *)
Theorem GetSectionFrom_absent (RxxtPrefix : list string) (s : Options)
    (path : string) (holder : Holder) :
  GetMapR RxxtPrefix s path = None →
  GetSectionFrom Holder Bytes Err Marshal Unmarshal RxxtPrefix s path holder
  = (holder, None).
Proof. intros H. unfold GetSectionFrom. by rewrite H. Qed.

End YamlFacts.

Lemma GetSectionFrom_absent_witness :
  GetMapR ["app"] (SetNx "app.debug" (VBool true) NewOptions) "server" = None ∧
  GetSectionFrom nat string string (fun _ => inl EmptyString) (fun _ _ => (0, None))
    ["app"] (SetNx "app.debug" (VBool true) NewOptions) "server" 7 = (7, None).
Proof.
  split; [reflexivity|].
  apply (GetSectionFrom_absent (fun _ => inl EmptyString) (fun _ _ => (0, None))).
  reflexivity.
Defined.

(** ** Typed accessors *)

Section BoolFacts.
Variable ToLower : string → string.
Variable Sprint : value → string.

Lemma existsb_eqb_In (x : string) (l : list string) :
  existsb (String.eqb x) l = true ↔ In x l.
Proof.
  rewrite existsb_exists. split.
  - intros (y & Hin & Heq). apply String.eqb_eq in Heq. by subst.
  - intros Hin. exists x. split; [done|]. apply String.eqb_refl.
Qed.

Lemma GetBool_true_iff (s : Options) (key : string) :
  GetBool ToLower Sprint s key = true ↔ In (ToLower (GetString Sprint s key)) truthy.
Proof. unfold GetBool. apply existsb_eqb_In. Qed.

Lemma GetBool_false_iff (s : Options) (key : string) :
  GetBool ToLower Sprint s key = false ↔ ¬ In (ToLower (GetString Sprint s key)) truthy.
Proof.
  rewrite <- GetBool_true_iff.
  destruct (GetBool ToLower Sprint s key); intuition congruence.
Qed.

Hypothesis ToLower_ascii : ∀ x, is_ascii x = true → ToLower x = ascii_lower x.


End BoolFacts.

Section SliceFacts.
Variable Sprint : value → string.
Variable Atoi : string → option Z.
Variable Itoa : Z → string.

(** The two slice accessors on a stored value that is not a byte slice
    follow the documented rule. *)
Lemma sliceOf_doc (v : value) :
  (∀ bs, v ≠ VBytes bs) →
  stringSliceOf Sprint Itoa v = doc_stringSliceOf Sprint Itoa v ∧
  intSliceOf Sprint Atoi v = doc_intSliceOf Sprint Atoi v.
Proof. intros Hb. destruct v; try done. by destruct (Hb bs). Qed.

(** C6, as the code has it. For a stored value that is not a byte
    slice, [GetStringSlice] and [GetIntSlice] take a list element by
    element, split a string on the comma, and print and split any other
    scalar. A byte slice is read as the string of its bytes and split on
    the comma. *)
Theorem GetSlice_coercion (s : Options) (key : string) (v : value) :
  entries s !! key = Some v →
  ((∀ bs, v ≠ VBytes bs) →
     GetStringSlice Sprint Itoa s key = doc_stringSliceOf Sprint Itoa v ∧
     GetIntSlice Sprint Atoi s key = doc_intSliceOf Sprint Atoi v) ∧
  (∀ bs, v = VBytes bs →
     GetStringSlice Sprint Itoa s key = Split comma bs ∧
     GetIntSlice Sprint Atoi s key = stringSliceToIntSlice Atoi (Split comma bs)).
Proof.
  intros Hk. unfold GetStringSlice, GetIntSlice. rewrite Hk. split.
  - apply sliceOf_doc.
  - by intros bs ->.
Qed.

End SliceFacts.


Lemma GetSlice_coercion_witness :
  let s := SetNx "x" (VStr "a,b,c") NewOptions in
  entries s !! "x" = Some (VStr "a,b,c") ∧
  GetStringSlice Sprint0 Itoa0 s "x" = ["a"; "b"; "c"].
Proof.
  split; [reflexivity|].
  apply (GetSlice_coercion Sprint0 Atoi0 Itoa0
           (SetNx "x" (VStr "a,b,c") NewOptions) "x" (VStr "a,b,c") eq_refl).
  discriminate.
Defined.

(** C6 as documented fails on a byte slice: its elements are not printed
    one by one. *)
Lemma GetStringSlice_bytes_not_elementwise :
  ¬ (∀ (Sprint : value → string) (Itoa : Z → string) (s : Options) (key : string) (v : value),
       entries s !! key = Some v →
       GetStringSlice Sprint Itoa s key = doc_stringSliceOf Sprint Itoa v).
Proof.
  intros H.
  specialize (H Sprint0 Itoa0 (SetNx "x" (VBytes "a,b") NewOptions)
                "x" (VBytes "a,b") eq_refl).
  discriminate H.
Qed.

(** ** Environment overlay *)

Lemma ReplaceAll_twice (s : string) :
  ReplaceAll (ReplaceAll s dot underscore) dash underscore
  = dots_dashes_to_underscores s.
Proof.
  induction s as [|c s IH]; [reflexivity|].
  simpl. rewrite IH. f_equal.
  destruct (Ascii.eqb_spec c dot) as [->|Hd]; [reflexivity|].
  simpl. by destruct (Ascii.eqb_spec c dash).
Qed.

Lemma HasPrefix_app (p r : string) : HasPrefix (p ++ r) p = true.
Proof.
  induction p as [|c p IH]; [by destruct r|].
  simpl. by rewrite Ascii.eqb_refl, IH.
Qed.

Lemma slice_from_app (p : string) (c : ascii) (r : string) :
  slice_from (String.length p + 1) (p ++ String c r) = Some r.
Proof. induction p as [|a p IH]; [reflexivity|]. simpl. apply IH. Qed.

Lemma wrap_under_prefix (RxxtPrefix : list string) (r : string) :
  RxxtPrefix ≠ [] → r ≠ EmptyString →
  wrapWithRxxtPrefix RxxtPrefix r = Join dot RxxtPrefix ++ String dot r.
Proof.
  intros Hp Hr. unfold wrapWithRxxtPrefix.
  destruct RxxtPrefix; [done|]. by destruct r.
Qed.

Lemma SetNx_entries_non_nil (key : string) (val : value) (s : Options) :
  val ≠ VNil → entries (SetNx key val s) = <[key := val]> (entries s).
Proof.
  intros Hv. unfold SetNx.
  pose proof (Split_not_nil dot key) as Hn.
  destruct (Split dot key) as [|a0 rest]; [done|].
  destruct val; try done; by destruct (getMapNoLock s key).
Qed.

Section EnvFacts.
Variable ToUpper : string → string.
Variable EnvPrefix RxxtPrefix : list string.
Variable LookupEnv : string → option string.

Local Abbreviation envKey_ := (envKey ToUpper EnvPrefix).
Local Abbreviation overlayKey_ :=
  (overlayKey ToUpper EnvPrefix RxxtPrefix LookupEnv).
Local Abbreviation buildAutomaticEnv_ :=
  (buildAutomaticEnv ToUpper EnvPrefix RxxtPrefix LookupEnv).

Lemma envKey_doc (key : string) : envKey_ key = doc_envName ToUpper EnvPrefix key.
Proof. unfold envKey, doc_envName. by rewrite ReplaceAll_twice. Qed.

Lemma overlayKey_under_prefix (key : string) (s : Options) :
  RxxtPrefix ≠ [] → under_prefix RxxtPrefix key →
  overlayKey_ key s =
  Some (match LookupEnv (envKey_ key) with
        | Some v => SetNx key (VStr v) s
        | None => s
        end).
Proof.
  intros Hp (r & Hr & ->). unfold overlayKey.
  destruct (LookupEnv _) as [v|]; [|done].
  rewrite HasPrefix_app, slice_from_app. unfold Set_.
  by rewrite wrap_under_prefix.
Qed.

Lemma buildAutomaticEnv_under_prefix (visit : list string) (s : Options) :
  RxxtPrefix ≠ [] →
  (∀ k, k ∈ visit → under_prefix RxxtPrefix k) →
  ∃ s', buildAutomaticEnv_ visit s = Some s' ∧
    ∀ k, entries s' !! k =
         match (if decide (k ∈ visit) then LookupEnv (envKey_ k) else None) with
         | Some v => Some (VStr v)
         | None => entries s !! k
         end.
Proof.
  intros Hp. revert s. induction visit as [|k0 rest IH]; intros s Hall.
  - exists s. split; [done|]. intros k. by rewrite decide_False by apply not_elem_of_nil.
  - simpl. rewrite overlayKey_under_prefix; [|done|apply Hall; left].
    set (s1 := match LookupEnv (envKey_ k0) with
               | Some v => SetNx k0 (VStr v) s | None => s end).
    destruct (IH s1) as (s' & Hrun & Hent).
    { intros k Hk. apply Hall. by right. }
    exists s'. split; [done|]. intros k. rewrite Hent.
    assert (entries s1 !! k =
            match (if decide (k = k0) then LookupEnv (envKey_ k0) else None) with
            | Some v => Some (VStr v)
            | None => entries s !! k
            end) as Hs1.
    { subst s1. destruct (LookupEnv (envKey_ k0)) as [v|].
      - rewrite SetNx_entries_non_nil by done.
        destruct (decide (k = k0)) as [->|Hne];
          [by rewrite lookup_insert_eq | by rewrite lookup_insert_ne].
      - by destruct (decide (k = k0)). }
    destruct (decide (k ∈ rest)) as [Hin|Hnin].
    + rewrite decide_True by (by right).
      destruct (LookupEnv (envKey_ k)) as [v|] eqn:Hk; [done|].
      rewrite Hs1. destruct (decide (k = k0)) as [->|Hne]; [by rewrite Hk|done].
    + rewrite Hs1. destruct (decide (k = k0)) as [->|Hne].
      * by rewrite decide_True by left.
      * by rewrite decide_False by (rewrite elem_of_cons; tauto).
Qed.


End EnvFacts.



(** ** The tree update *)

Lemma mergeMap_eq (m : gmap string value) (key : string) (val : value) :
  mergeMap m key val =
  match m !! key with
  | Some (VMap zm) =>
      match val with
      | VMap vm =>
          <[key := VMap (map_fold (fun k v zm' => mergeMap zm' k v) zm vm)]> m
      | _ => <[key := val]> m
      end
  | _ => <[key := val]> m
  end.
Proof. by destruct val. Qed.

Lemma mergeMap_lookup_ne (m : gmap string value) (key key' : string) (val : value) :
  key' ≠ key → mergeMap m key val !! key' = m !! key'.
Proof.
  intros Hne. rewrite mergeMap_eq.
  destruct (m !! key) as [[]|]; try (by rewrite lookup_insert_ne).
  destruct val; by rewrite lookup_insert_ne.
Qed.

Lemma mergeMap_lookup_replace (m : gmap string value) (key : string) (val : value) :
  (∀ zm, m !! key ≠ Some (VMap zm)) ∨ is_map val = false →
  mergeMap m key val !! key = Some val.
Proof.
  intros H. rewrite mergeMap_eq.
  destruct (m !! key) as [z|] eqn:Hz; [|by rewrite lookup_insert_eq].
  destruct z; try (by rewrite lookup_insert_eq).
  destruct val; try (by rewrite lookup_insert_eq).
  destruct H as [H|H]; [by destruct (H m0)|done].
Qed.

Lemma mergeMap_replace (m : gmap string value) (key : string) (val : value) :
  (∀ zm, m !! key ≠ Some (VMap zm)) ∨ is_map val = false →
  mergeMap m key val = <[key := val]> m.
Proof.
  intros H. rewrite mergeMap_eq.
  destruct (m !! key) as [z|] eqn:Hz; [|done].
  destruct z; try done. destruct val; try done.
  destruct H as [H|H]; [by destruct (H m0)|done].
Qed.

Lemma mergeMap_lookup_merge (m zm vm : gmap string value) (key : string) :
  m !! key = Some (VMap zm) →
  mergeMap m key (VMap vm) !! key
  = Some (VMap (map_fold (fun k v zm' => mergeMap zm' k v) zm vm)).
Proof. intros Hz. rewrite mergeMap_eq, Hz. by rewrite lookup_insert_eq. Qed.

(** The entry that [mergeMap] leaves at [key] depends on the old entry at
    [key] only. *)
Lemma mergeMap_lookup_local (m1 m2 : gmap string value) (key : string) (val : value) :
  m1 !! key = m2 !! key → mergeMap m1 key val !! key = mergeMap m2 key val !! key.
Proof.
  intros H. rewrite !mergeMap_eq, <- H.
  destruct (m1 !! key) as [[]|]; try (by rewrite !lookup_insert_eq).
  destruct val; by rewrite !lookup_insert_eq.
Qed.

(** The loop of [mergeMap] over the children of the incoming map. *)
Lemma merge_children_lookup (zm vm : gmap string value) (k : string) :
  map_fold (fun k v zm' => mergeMap zm' k v) zm vm !! k =
  match vm !! k with
  | Some v => mergeMap zm k v !! k
  | None => zm !! k
  end.
Proof.
  revert k.
  apply (map_fold_weak_ind (fun r vm' => ∀ k, r !! k =
    match vm' !! k with Some v => mergeMap zm k v !! k | None => zm !! k end)).
  - intros k. by rewrite lookup_empty.
  - intros i x vm' r Hi IH k.
    destruct (decide (k = i)) as [->|Hne].
    + rewrite lookup_insert_eq. apply mergeMap_lookup_local.
      by rewrite IH, Hi.
    + rewrite lookup_insert_ne by done.
      rewrite mergeMap_lookup_ne by done. apply IH.
Qed.

(** Two turns of that loop at different keys commute: the order in which
    [range] yields the keys of a map is immaterial. *)
Lemma mergeMap_comm (m : gmap string value) (k1 k2 : string) (v1 v2 : value) :
  k1 ≠ k2 →
  mergeMap (mergeMap m k1 v1) k2 v2 = mergeMap (mergeMap m k2 v2) k1 v1.
Proof.
  intros Hne. apply map_eq. intros k.
  destruct (decide (k = k2)) as [->|H2].
  - rewrite (mergeMap_lookup_ne _ k1 k2) by done.
    apply mergeMap_lookup_local. by rewrite mergeMap_lookup_ne.
  - rewrite (mergeMap_lookup_ne _ k2 k) by done.
    destruct (decide (k = k1)) as [->|H1].
    + apply mergeMap_lookup_local. by rewrite mergeMap_lookup_ne.
    + by rewrite !mergeMap_lookup_ne.
Qed.

Open Scope list_scope.

Lemma insert_path_cons2 (k k' : string) (ks : list string) (val : value)
    (m : gmap string value) :
  insert_path (k :: k' :: ks) val m
  = <[k := VMap (insert_path (k' :: ks) val (child m k))]> m.
Proof. reflexivity. Qed.

Lemma insert_path_empty (k : string) (ks : list string) (val : value) :
  insert_path (k :: ks) val ∅ = {[k := et ks val]}.
Proof.
  revert k. induction ks as [|k' ks IH]; intros k.
  - simpl. by rewrite insert_empty.
  - rewrite insert_path_cons2. unfold child. rewrite lookup_empty, IH.
    simpl. by rewrite insert_empty.
Qed.

(** For a value that is not a map, [mergeMap] applied to the chain of
    [et] stores the value at the end of the path. *)
Lemma mergeMap_et (m : gmap string value) (a0 : string) (rest : list string)
    (val : value) :
  is_map val = false →
  mergeMap m a0 (et rest val) = insert_path (a0 :: rest) val m.
Proof.
  intros Hval. revert m a0. induction rest as [|k ks IH]; intros m a0.
  - simpl. apply mergeMap_replace. by right.
  - rewrite insert_path_cons2. simpl et. rewrite mergeMap_eq. unfold child.
    destruct (m !! a0) as [z|] eqn:Hz.
    + destruct z; try (by rewrite insert_path_empty).
      by rewrite map_fold_singleton, IH.
    + by rewrite insert_path_empty.
Qed.

Lemma descend_cons (m : gmap string value) (k : string) (ks : list string) :
  descend (VMap m) (k :: ks) =
  match m !! k with Some v => descend v ks | None => None end.
Proof. reflexivity. Qed.

Lemma descend_leaf (v : value) (k : string) (ks : list string) :
  is_map v = false → descend v (k :: ks) = None.
Proof. by destruct v. Qed.

Lemma descend_app (v : value) (p q : list string) :
  descend v (p ++ q) = match descend v p with Some x => descend x q | None => None end.
Proof.
  revert v. induction p as [|k ks IH]; intros v; [done|].
  simpl. destruct v; try done. destruct (m !! k); [apply IH|done].
Qed.

Lemma descend_child (m : gmap string value) (k x : string) (r : list string) :
  descend (VMap (child m k)) (x :: r) = descend (VMap m) (k :: x :: r).
Proof.
  rewrite (descend_cons m k). unfold child.
  destruct (m !! k) as [z|]; [|by rewrite descend_cons, lookup_empty].
  destruct z; try (by rewrite descend_cons, lookup_empty).
  done.
Qed.

Lemma descend_insert_path_eq (p : list string) (val : value) (m : gmap string value) :
  p ≠ [] → descend (VMap (insert_path p val m)) p = Some val.
Proof.
  revert m. induction p as [|k ks IH]; intros m Hp; [done|].
  destruct ks as [|k' ks].
  - simpl. by rewrite lookup_insert_eq.
  - rewrite insert_path_cons2, descend_cons, lookup_insert_eq. by apply IH.
Qed.

Lemma descend_insert_path_apart (p r : list string) (val : value)
    (m : gmap string value) :
  apart r p →
  descend (VMap (insert_path p val m)) r = descend (VMap m) r.
Proof.
  revert m r. induction p as [|k ks IH]; intros m r [Hrp Hpr].
  { destruct Hpr. apply prefix_nil. }
  destruct r as [|x r]; [destruct Hrp; apply prefix_nil|].
  destruct (decide (x = k)) as [->|Hne].
  - assert (apart r ks) as Hap.
    { split; intros H; [apply Hrp|apply Hpr]; by apply prefix_cons. }
    destruct ks as [|k' ks]; [destruct (proj2 Hap); apply prefix_nil|].
    destruct r as [|y r]; [destruct (proj1 Hap); apply prefix_nil|].
    rewrite insert_path_cons2, descend_cons, lookup_insert_eq.
    rewrite IH by done. apply descend_child.
  - rewrite !descend_cons.
    destruct ks as [|k' ks]; simpl insert_path; by rewrite lookup_insert_ne.
Qed.

Lemma descend_insert_path_above (r : list string) (x : string) (t : list string)
    (val : value) (m : gmap string value) :
  ∃ m', descend (VMap (insert_path (r ++ x :: t) val m)) r = Some (VMap m').
Proof.
  revert m. induction r as [|k r IH]; intros m; [by eexists|].
  assert (∃ k' ks, r ++ x :: t = k' :: ks) as (k' & ks & Heq).
  { destruct r; simpl; eauto. }
  change ((k :: r) ++ x :: t) with (k :: (r ++ x :: t)).
  rewrite Heq, insert_path_cons2, descend_cons, lookup_insert_eq, <- Heq.
  apply IH.
Qed.

Lemma descend_insert_path_below (p : list string) (x : string) (t : list string)
    (val : value) (m : gmap string value) :
  p ≠ [] → is_map val = false →
  descend (VMap (insert_path p val m)) (p ++ x :: t) = None.
Proof.
  intros Hp Hval. rewrite descend_app, descend_insert_path_eq by done.
  by apply descend_leaf.
Qed.

(** A path is equal to another, apart from it, strictly above it or
    strictly below it. *)
Lemma path_cases (r p : list string) :
  r = p ∨ apart r p ∨ (∃ x t, p = r ++ x :: t) ∨ (∃ x t, r = p ++ x :: t).
Proof.
  destruct (decide (r `prefix_of` p)) as [[t Ht]|Hrp].
  - destruct t as [|x t]; [left; by rewrite Ht, app_nil_r|].
    right; right; left. eauto.
  - destruct (decide (p `prefix_of` r)) as [[t Ht]|Hpr].
    + destruct t as [|x t]; [left; by rewrite Ht, app_nil_r|].
      right; right; right. eauto.
    + right; left. by split.
Qed.

(** [getMap] finds something exactly when the path leads to a node. *)
Lemma getMap_is_Some (vp : gmap string value) (key : string) (remains : list string) :
  is_Some (getMap vp key remains) ↔ is_Some (descend (VMap vp) (key :: remains)).
Proof.
  revert vp key. induction remains as [|r rs IH]; intros vp key.
  - simpl. destruct (vp !! key) as [z|]; [|by rewrite !is_Some_alt].
    destruct z; by rewrite !is_Some_alt.
  - rewrite descend_cons. simpl getMap.
    destruct (vp !! key) as [z|]; [|by rewrite !is_Some_alt].
    destruct z; try (by rewrite !is_Some_alt). apply IH.
Qed.

Lemma getMapNoLock_is_Some (s : Options) (key : string) :
  is_Some (getMapNoLock s key) ↔ is_Some (tree_at s (Split dot key)).
Proof.
  unfold getMapNoLock, tree_at.
  pose proof (Split_not_nil dot key) as Hn.
  destruct (Split dot key) as [|a0 rest]; [done|]. apply getMap_is_Some.
Qed.

(** A missing segment on the way makes [GetMapR] answer nil. *)
Lemma GetMapR_missing_segment (RxxtPrefix : list string) (s : Options) (key : string) :
  tree_at s (Split dot (wrapWithRxxtPrefix RxxtPrefix key)) = None →
  GetMapR RxxtPrefix s key = None.
Proof.
  intros Hn. unfold GetMapR, GetMap.
  destruct (getMapNoLock s (wrapWithRxxtPrefix RxxtPrefix key)) as [g|] eqn:Hg;
    [|done].
  assert (is_Some (tree_at s (Split dot (wrapWithRxxtPrefix RxxtPrefix key)))) as [x Hx].
  { apply getMapNoLock_is_Some. eauto. }
  congruence.
Qed.

(** [SetNx] in two equations: the nil guard, and the two updates. *)
Lemma SetNx_guarded (key : string) (s : Options) :
  is_Some (tree_at s (Split dot key)) → SetNx key VNil s = s.
Proof.
  intros H. apply getMapNoLock_is_Some in H as [g Hg].
  unfold SetNx. by rewrite Hg.
Qed.

Lemma SetNx_stored (key : string) (val : value) (s : Options) :
  is_map val = false →
  val ≠ VNil ∨ tree_at s (Split dot key) = None →
  SetNx key val s =
  mkOptions (<[key := val]> (entries s))
            (insert_path (Split dot key) val (hierarchy s)).
Proof.
  intros Hval Hor. unfold SetNx.
  pose proof (getMapNoLock_is_Some s key) as Hg.
  pose proof (Split_not_nil dot key) as Hn.
  unfold getMapNoLock in *.
  destruct (Split dot key) as [|a0 rest] eqn:Hsplit; [done|].
  rewrite mergeMap_et by done.
  destruct (getMap (hierarchy s) a0 rest) as [g|] eqn:Hgm.
  - destruct val; try done.
    destruct Hor as [Hor|Hor]; [done|].
    assert (is_Some (tree_at s (a0 :: rest))) as [x Hx] by (apply Hg; eauto).
    congruence.
  - by destruct val.
Qed.

Lemma Split_app_sep (x s : string) :
  Split dot (x +:+ String dot s) = Split dot x ++ Split dot s.
Proof.
  induction x as [|c x IH]; [reflexivity|].
  change (String c x +:+ String dot s) with (String c (x +:+ String dot s)).
  rewrite !Split_String, IH.
  destruct (Ascii.eqb c dot); [reflexivity|].
  pose proof (Split_not_nil dot x) as Hn.
  by destruct (Split dot x).
Qed.

Lemma Split_wrap (RxxtPrefix : list string) (key : string) :
  key ≠ EmptyString →
  Split dot (wrapWithRxxtPrefix RxxtPrefix key)
  = prefix_path RxxtPrefix ++ Split dot key.
Proof.
  intros Hk. unfold wrapWithRxxtPrefix, prefix_path.
  destruct RxxtPrefix as [|x l]; [done|].
  destruct key; [done|]. apply Split_app_sep.
Qed.

Lemma getMap_branch (vp mm : gmap string value) (key : string) (remains : list string) :
  descend (VMap vp) (key :: remains) = Some (VMap mm) →
  getMap vp key remains = Some mm.
Proof.
  revert vp key. induction remains as [|r rs IH]; intros vp key.
  - simpl. destruct (vp !! key) as [z|]; [|done]. by intros [= ->].
  - rewrite descend_cons. simpl getMap.
    destruct (vp !! key) as [z|]; [|done].
    destruct z; try done. apply IH.
Qed.

Lemma apart_siblings (q : list string) (b c : string) :
  b ≠ c → apart (q ++ [b]) (q ++ [c]).
Proof.
  intros Hne. split; intros H; apply prefix_app_inv in H;
    apply prefix_cons_inv_1 in H; congruence.
Qed.

(** Two values stored under sibling keys are both found in the map of
    their parent. *)
Lemma insert_path_siblings (q : list string) (b c : string) (v1 v2 : value)
    (m : gmap string value) :
  b ≠ c → is_map v1 = false → is_map v2 = false →
  ∃ mm, descend (VMap (insert_path (q ++ [c]) v2 (insert_path (q ++ [b]) v1 m))) q
        = Some (VMap mm) ∧
        mm !! b = Some v1 ∧ mm !! c = Some v2.
Proof.
  intros Hne H1 H2.
  set (t1 := insert_path (q ++ [b]) v1 m).
  destruct (descend_insert_path_above q c [] v2 t1) as [mm Hmm].
  exists mm. split; [done|].
  assert (q ++ [b] ≠ []) as Hb by (by destruct q).
  assert (q ++ [c] ≠ []) as Hc by (by destruct q).
  pose proof (descend_insert_path_eq (q ++ [c]) v2 t1 Hc) as Hcv.
  pose proof (descend_insert_path_apart (q ++ [c]) (q ++ [b]) v2 t1
                (apart_siblings q b c Hne)) as Hbv.
  unfold t1 in Hbv at 2. rewrite descend_insert_path_eq in Hbv by done.
  rewrite descend_app, Hmm in Hcv, Hbv. simpl in Hcv, Hbv.
  split.
  - destruct (mm !! b); [done|discriminate].
  - destruct (mm !! c); [done|discriminate].
Qed.

Lemma Set_siblings (RxxtPrefix : list string) (s : Options) (v1 v2 : value) :
  is_map v1 = false → is_map v2 = false → v1 ≠ VNil → v2 ≠ VNil →
  ∃ mm, GetMapR RxxtPrefix
          (Set_ RxxtPrefix "a.c" v2 (Set_ RxxtPrefix "a.b" v1 s)) "a" = Some mm ∧
        mm !! "b" = Some v1 ∧ mm !! "c" = Some v2.
Proof.
  intros H1 H2 Hn1 Hn2. unfold Set_, GetMapR, GetMap, getMapNoLock.
  rewrite !SetNx_stored by (done || by left).
  rewrite !Split_wrap by done. simpl hierarchy.
  change (Split dot "a.b") with ["a"; "b"].
  change (Split dot "a.c") with ["a"; "c"].
  change (Split dot "a") with ["a"].
  replace (prefix_path RxxtPrefix ++ ["a"; "b"])
    with ((prefix_path RxxtPrefix ++ ["a"]) ++ ["b"]) by (by rewrite <- app_assoc).
  replace (prefix_path RxxtPrefix ++ ["a"; "c"])
    with ((prefix_path RxxtPrefix ++ ["a"]) ++ ["c"]) by (by rewrite <- app_assoc).
  destruct (insert_path_siblings (prefix_path RxxtPrefix ++ ["a"]) "b" "c" v1 v2
              (hierarchy s)) as (mm & Hmm & Hb & Hc); [done..|].
  exists mm. split; [|done].
  destruct (prefix_path RxxtPrefix ++ ["a"]) as [|a0 rest] eqn:Hq.
  { by destruct (prefix_path RxxtPrefix). }
  by apply getMap_branch.
Qed.

(** C4. [mergeMap] touches one key of the map it is given. Where the old
    node and the incoming value are both maps, the children of the
    incoming map are merged into the old map one key at a time by
    [mergeMap] itself: a child the incoming map lacks is kept, a child
    it has is merged or, on a clash of kinds, replaced. Where the old
    node or the incoming value is not a map, the incoming value takes
    the place. Setting a.b to 1 and then a.c to 2 leaves a map at a that
    holds b: 1 and c: 2, with the prefixed calls and with the raw ones. *)
Theorem mergeMap_semantics :
  (∀ m key val key', key' ≠ key → mergeMap m key val !! key' = m !! key') ∧
  (∀ m key zm vm, m !! key = Some (VMap zm) →
     ∃ r, mergeMap m key (VMap vm) !! key = Some (VMap r) ∧
          ∀ k, r !! k = match vm !! k with
                        | Some v => mergeMap zm k v !! k
                        | None => zm !! k
                        end) ∧
  (∀ m key val, (∀ zm, m !! key ≠ Some (VMap zm)) ∨ is_map val = false →
     mergeMap m key val !! key = Some val) ∧
  (∀ RxxtPrefix s,
     ∃ mm, GetMapR RxxtPrefix
             (Set_ RxxtPrefix "a.c" (VInt 2) (Set_ RxxtPrefix "a.b" (VInt 1) s)) "a"
           = Some mm ∧
           mm !! "b" = Some (VInt 1) ∧ mm !! "c" = Some (VInt 2)) ∧
  (∀ s,
     ∃ mm, GetMap (SetNx "a.c" (VInt 2) (SetNx "a.b" (VInt 1) s)) "a" = Some mm ∧
           mm !! "b" = Some (VInt 1) ∧ mm !! "c" = Some (VInt 2)).
Proof.
  split; [intros; by apply mergeMap_lookup_ne|].
  split.
  { intros m key zm vm Hz. eexists. split; [by apply mergeMap_lookup_merge|].
    apply merge_children_lookup. }
  split; [intros; by apply mergeMap_lookup_replace|].
  split.
  - intros RxxtPrefix s. by apply Set_siblings.
  - intros s. apply (Set_siblings [] s (VInt 1) (VInt 2)); done.
Qed.

Lemma mergeMap_semantics_witness :
  let m : gmap string value := {["a" := VMap {["b" := VInt 1]}]} in
  m !! "a" = Some (VMap {["b" := VInt 1]}) ∧
  ∃ r, mergeMap m "a" (VMap {["c" := VInt 2]}) !! "a" = Some (VMap r) ∧
       r !! "b" = Some (VInt 1) ∧ r !! "c" = Some (VInt 2).
Proof.
  intros m. split; [reflexivity|].
  destruct (proj1 (proj2 mergeMap_semantics) m "a" {["b" := VInt 1]}
              {["c" := VInt 2]} eq_refl) as (r & Hr & Hk).
  exists r. split; [done|]. split.
  - by rewrite (Hk "b").
  - by rewrite (Hk "c").
Defined.

(** ** The nil guard of [SetNx] *)

(** A nil value is dropped whenever the path of the key leads to a node
    of the hierarchy, a leaf just as well as a map; otherwise it is
    stored. *)
Lemma SetNx_nil (key : string) (s : Options) :
  (is_Some (tree_at s (Split dot key)) → SetNx key VNil s = s) ∧
  (tree_at s (Split dot key) = None →
   entries (SetNx key VNil s) !! key = Some VNil ∧
   tree_at (SetNx key VNil s) (Split dot key) = Some VNil).
Proof.
  split; [apply SetNx_guarded|].
  intros Hn. rewrite SetNx_stored by (done || by right).
  simpl. rewrite lookup_insert_eq. split; [done|].
  unfold tree_at. simpl. apply descend_insert_path_eq, Split_not_nil.
Qed.

(** C2 at work on a key that holds a leaf: after [SetNx "a" 1] the call
    [SetNx "a" nil] changes nothing, and [Get "a"] still answers 1. *)
Theorem SetNx_nil_over_leaf :
  let s := SetNx "a" (VInt 1) NewOptions in
  leaf_at s ["a"] = Some (VInt 1) ∧
  getMapNoLock s "a" = Some (hierarchy s) ∧
  SetNx "a" VNil s = s ∧
  Get (SetNx "a" VNil s) "a" = VInt 1.
Proof. repeat split. Qed.

(** ** Flat map and hierarchy *)

Lemma SetNx_cases (key : string) (val : value) (s : Options) :
  is_map val = false →
  SetNx key val s = s ∨
  SetNx key val s = mkOptions (<[key := val]> (entries s))
                              (insert_path (Split dot key) val (hierarchy s)).
Proof.
  intros Hval.
  destruct (tree_at s (Split dot key)) as [x|] eqn:Ht.
  - destruct val; try (right; apply SetNx_stored; [done|by left]).
    left. apply SetNx_guarded. rewrite Ht. eauto.
  - right. apply SetNx_stored; [done|by right].
Qed.

Lemma tree_at_stored (key : string) (val : value) (s : Options) (E : gmap string value)
    (p : list string) :
  is_map val = false →
  tree_at (mkOptions E (insert_path (Split dot key) val (hierarchy s))) p =
  if decide (p = Split dot key) then Some val
  else if decide (apart p (Split dot key)) then tree_at s p
  else if decide (p `prefix_of` Split dot key)
       then tree_at (mkOptions E (insert_path (Split dot key) val (hierarchy s))) p
       else None.
Proof.
  intros Hval. unfold tree_at. simpl.
  pose proof (Split_not_nil dot key) as Hn.
  destruct (decide (p = Split dot key)) as [->|Hne].
  { by apply descend_insert_path_eq. }
  destruct (decide (apart p (Split dot key))) as [Hap|Hnap].
  { by apply descend_insert_path_apart. }
  destruct (decide (p `prefix_of` Split dot key)) as [Hpre|Hnpre]; [done|].
  destruct (path_cases p (Split dot key)) as [?|[?|[(x & t & Hq)|(x & t & ->)]]];
    try done.
  - destruct Hnpre. rewrite Hq. by apply prefix_app_r.
  - by apply descend_insert_path_below.
Qed.

Lemma leaf_at_stored (key : string) (val : value) (s : Options) (E : gmap string value)
    (p : list string) :
  is_map val = false →
  leaf_at (mkOptions E (insert_path (Split dot key) val (hierarchy s))) p =
  if decide (p = Split dot key) then Some val
  else if decide (apart p (Split dot key)) then leaf_at s p
  else None.
Proof.
  intros Hval. unfold leaf_at. rewrite tree_at_stored by done.
  destruct (decide (p = Split dot key)) as [->|Hne]; [by rewrite Hval|].
  destruct (decide (apart p (Split dot key))) as [Hap|Hnap]; [done|].
  destruct (decide (p `prefix_of` Split dot key)) as [[t Ht]|Hnpre]; [|done].
  destruct t as [|x t]; [by rewrite app_nil_r in Ht|].
  unfold tree_at. simpl. rewrite Ht.
  by destruct (descend_insert_path_above p x t val (hierarchy s)) as [m' ->].
Qed.

Lemma SetNx_tree_in_flat (key : string) (val : value) (s : Options) :
  is_map val = false → tree_in_flat s → tree_in_flat (SetNx key val s).
Proof.
  intros Hval Hinv.
  destruct (SetNx_cases key val s Hval) as [->| ->]; [done|].
  intros p v. rewrite leaf_at_stored by done. simpl.
  destruct (decide (p = Split dot key)) as [->|Hne].
  - intros [= <-]. rewrite !Join_Split. by rewrite lookup_insert_eq.
  - destruct (decide (apart p (Split dot key))); [|done].
    intros Hleaf. destruct (Hinv p v Hleaf) as [Hsp Hent].
    split; [done|]. rewrite lookup_insert_ne; [done|].
    intros ->. by rewrite Hsp in Hne.
Qed.

Lemma SetNx_flat_in_tree (key : string) (val : value) (s : Options) :
  is_map val = false →
  flat_in_tree_unless_overlapped s → flat_in_tree_unless_overlapped (SetNx key val s).
Proof.
  intros Hval Hinv.
  destruct (SetNx_cases key val s Hval) as [->| ->]; [done|].
  intros k v. simpl. rewrite dom_insert_L.
  destruct (decide (k = key)) as [->|Hne].
  - rewrite lookup_insert_eq. intros [= <-]. left.
    rewrite tree_at_stored by done. by rewrite decide_True.
  - rewrite lookup_insert_ne by done. intros Hk.
    destruct (Hinv k v Hk) as [Ht|(k' & Hk' & Hov)].
    + assert (Split dot k ≠ Split dot key) as Hsp.
      { intros H. by apply Split_inj in H. }
      destruct (decide (apart (Split dot k) (Split dot key))) as [Hap|Hnap].
      * left. rewrite tree_at_stored by done.
        by rewrite decide_False, decide_True.
      * right. exists key. split; [set_solver|]. split; [done|].
        destruct (decide (Split dot k `prefix_of` Split dot key)); [by left|].
        destruct (decide (Split dot key `prefix_of` Split dot k)); [by right|].
        by destruct Hnap.
    + right. exists k'. split; [set_solver|done].
Qed.

Lemma run_calls_invariant (RxxtPrefix : list string) (cs : list call) (s : Options) :
  leaf_calls cs →
  tree_in_flat s ∧ flat_in_tree_unless_overlapped s →
  tree_in_flat (run_calls RxxtPrefix cs s) ∧
  flat_in_tree_unless_overlapped (run_calls RxxtPrefix cs s).
Proof.
  revert s. induction cs as [|c cs IH]; intros s Hcs Hinv; [done|].
  inversion Hcs as [|? ? Hc Hcs']; subst.
  simpl. apply IH; [done|]. destruct Hinv as [H1 H2].
  destruct c as [k v|k v]; simpl in *; unfold Set_;
    split; by (apply SetNx_tree_in_flat || apply SetNx_flat_in_tree).
Qed.

(** C1, as the code has it. After any sequence of [Set] and [SetNx]
    calls with values that are not maps themselves, every leaf of the
    hierarchy has exactly one flat key, the path joined with dots, and
    the flat map holds the leaf under it; and a flat key leads to its
    value in the hierarchy unless another flat key continues it or is
    continued by it. *)
Theorem flat_tree_consistency (RxxtPrefix : list string) (cs : list call) :
  leaf_calls cs →
  let s := run_calls RxxtPrefix cs NewOptions in
  tree_in_flat s ∧
  (∀ p key, Split dot key = p → key = Join dot p) ∧
  flat_in_tree_unless_overlapped s ∧
  (∀ key v, entries s !! key = Some v →
            (∀ key', key' ∈ dom (entries s) → ¬ overlapping key key') →
            tree_at s (Split dot key) = Some v).
Proof.
  intros Hcs s.
  destruct (run_calls_invariant RxxtPrefix cs NewOptions Hcs) as [H1 H2].
  { split.
    - intros p v. unfold leaf_at, tree_at. simpl.
      destruct p as [|k ks]; [done|]. by rewrite descend_cons, lookup_empty.
    - intros key v. simpl. by rewrite lookup_empty. }
  split; [done|]. split.
  { intros p key <-. by rewrite Join_Split. }
  split; [done|].
  intros key v Hk Hno. destruct (H2 key v Hk) as [Ht|(k' & Hk' & Hov)]; [done|].
  by destruct (Hno k' Hk').
Qed.

Lemma flat_tree_consistency_witness :
  let cs := [CallSet "debug" (VBool true); CallSetNx "app.logger.level" (VStr "DEBUG")] in
  let s := run_calls ["app"] cs NewOptions in
  leaf_calls cs ∧ tree_in_flat s ∧ flat_in_tree_unless_overlapped s.
Proof.
  intros cs s.
  assert (leaf_calls cs) as Hcs by (by repeat constructor).
  split; [done|].
  destruct (flat_tree_consistency ["app"] cs Hcs) as (H1 & _ & H2 & _).
  by split.
Defined.

(** C1 as documented fails once a key is continued by a later one: after
    [SetNx "a" 1] and [SetNx "a.b" 2] the flat map holds 1 under a, the
    hierarchy a map. *)
Lemma flat_key_overlapped_by_longer_key :
  ¬ flat_in_tree (run_calls ["app"]
                    [CallSetNx "a" (VInt 1); CallSetNx "a.b" (VInt 2)] NewOptions).
Proof.
  intros H. specialize (H "a" (VInt 1) eq_refl).
  vm_compute in H. discriminate H.
Qed.

(** ** Induction over nested maps *)

Lemma vsize_child (m : gmap string value) (k : string) (v : value) :
  m !! k = Some v → vsize v < vsize (VMap m).
Proof.
  intros Hk. simpl.
  rewrite (map_fold_delete_L _ _ k v m); [lia| |done].
  intros. lia.
Qed.

Lemma value_map_ind (P : value → Prop) :
  (∀ v, is_map v = false → P v) →
  (∀ m, (∀ k v, m !! k = Some v → P v) → P (VMap m)) →
  ∀ v, P v.
Proof.
  intros Hleaf Hmap.
  assert (∀ n v, vsize v < n → P v) as Hall.
  { induction n as [|n IHn]; intros v Hv; [lia|].
    destruct (is_map v) eqn:Hm; [|by apply Hleaf].
    destruct v; try done. apply Hmap. intros k v Hk.
    apply IHn. pose proof (vsize_child m k v Hk). lia. }
  intros v. apply (Hall (S (vsize v))). lia.
Qed.

(** ** Ingestion as a list of calls *)

Lemma leaf_of_nil (v : value) :
  leaf_of v [] = if is_map v then None else Some v.
Proof. reflexivity. Qed.

Lemma leaf_of_cons (m : gmap string value) (k : string) (q : list string) :
  leaf_of (VMap m) (k :: q) =
  match m !! k with Some v => leaf_of v q | None => None end.
Proof. unfold leaf_of. rewrite descend_cons. by destruct (m !! k). Qed.

Lemma leaf_of_is_leaf (v x : value) (q : list string) :
  leaf_of v q = Some x → descend v q = Some x ∧ is_map x = false.
Proof.
  unfold leaf_of. destruct (descend v q) as [y|]; [|done].
  destruct (is_map y) eqn:Hy; [done|]. by intros [= <-].
Qed.

Lemma leaf_of_intro (v x : value) (q : list string) :
  descend v q = Some x → is_map x = false → leaf_of v q = Some x.
Proof. intros Hd Hx. unfold leaf_of. by rewrite Hd, Hx. Qed.

Lemma foldr_app_bind {A B : Type} (g : A → list B) (l : list A) :
  foldr (fun e acc => g e ++ acc) [] l = l ≫= g.
Proof. induction l as [|e l IH]; [done|]. simpl. by rewrite IH. Qed.

Lemma leaves_at_map (p : list string) (vm : gmap string value) :
  leaves_at p (VMap vm) = map_to_list vm ≫= (fun kv => leaves_at (p ++ [kv.1]) kv.2).
Proof.
  simpl. rewrite map_fold_foldr, <- foldr_app_bind.
  induction (map_to_list vm) as [|[k v] l IH]; [done|]. simpl. by rewrite IH.
Qed.

(** The calls made for [v] at [p] are the leaves below [v], each at its
    path. *)
Lemma elem_of_leaves_at (v : value) :
  ∀ p r x, (r, x) ∈ leaves_at p v ↔ ∃ q, r = p ++ q ∧ leaf_of v q = Some x.
Proof.
  induction v as [v Hv|vm IH] using value_map_ind; intros p r x.
  - assert (leaves_at p v = [(p, v)]) as -> by (by destruct v).
    rewrite list_elem_of_singleton. split.
    + intros [= -> ->]. exists []. rewrite app_nil_r, leaf_of_nil, Hv. done.
    + intros (q & -> & Hq). destruct q as [|k q].
      * rewrite leaf_of_nil, Hv in Hq. rewrite app_nil_r. congruence.
      * unfold leaf_of in Hq. by rewrite descend_leaf in Hq.
  - rewrite leaves_at_map, list_elem_of_bind. split.
    + intros ([k v] & Hin & Hkv). apply elem_of_map_to_list in Hkv.
      simpl in Hin. apply (IH k v Hkv) in Hin as (q & -> & Hq).
      exists (k :: q). rewrite <- app_assoc. split; [done|].
      by rewrite leaf_of_cons, Hkv.
    + intros (q & -> & Hq). destruct q as [|k q]; [done|].
      rewrite leaf_of_cons in Hq.
      destruct (vm !! k) as [v|] eqn:Hkv; [|done].
      exists (k, v). split; [|by apply elem_of_map_to_list].
      simpl. apply (IH k v Hkv). exists q. by rewrite <- app_assoc.
Qed.

Lemma append_assoc (a b c : string) :
  ((a +:+ b) +:+ c = a +:+ (b +:+ c))%string.
Proof.
  induction a as [|x a IH]; [done|].
  change (String x ((a +:+ b) +:+ c) = String x (a +:+ (b +:+ c)))%string.
  by rewrite IH.
Qed.

Lemma Join_snoc (p : list string) (k : string) :
  p ≠ [] → Join dot (p ++ [k]) = (Join dot p +:+ String dot k)%string.
Proof.
  induction p as [|x p IH]; [done|]. intros _.
  destruct p as [|y p]; [done|].
  change ((x :: y :: p) ++ [k]) with (x :: y :: (p ++ [k])).
  rewrite !Join_cons.
  change (y :: p ++ [k]) with ((y :: p) ++ [k]). rewrite IH by done.
  by rewrite append_assoc.
Qed.

Lemma mx_Join (p : list string) (k : string) :
  p ≠ [EmptyString] → mx (Join dot p) k = Join dot (p ++ [k]).
Proof.
  intros Hp. destruct p as [|x p]; [done|].
  rewrite Join_snoc by done. unfold mx.
  destruct (Join dot (x :: p)) eqn:Hj; [|done].
  destruct p as [|y p]; [simpl in Hj; congruence|].
  rewrite Join_cons in Hj. by destruct x.
Qed.

Section IngestFacts.
Variable Sprint : value → string.

(** Entering a nested map with arbitrary keys is [loopIxMap] on it. *)
Lemma loopIxMap_at_nested (kdot : string) (vm : list (value * value)) (s : Options) :
  loopIxMap_at Sprint kdot (VIxMap vm) s = loopIxMap Sprint kdot vm s.
Proof.
  unfold loopIxMap. simpl. revert s.
  induction vm as [|[k v] l IH]; intros s; [done|]. apply IH.
Qed.

Lemma plain_at_child (p : list string) (vm : gmap string value) (k : string) (v : value) :
  plain_at p (VMap vm) → vm !! k = Some v → plain_at (p ++ [k]) v.
Proof.
  intros Hpl Hk q x Hq. rewrite <- app_assoc. apply (Hpl (k :: q)).
  by rewrite descend_cons, Hk.
Qed.

(** [loopMap] makes the calls of [leaves_at], the last of the list
    first. *)
Lemma loopMap_at_leaves (v : value) :
  ∀ p s, plain_at p v →
    loopMap_at Sprint (Join dot p) v s = foldr SetNx_path s (leaves_at p v).
Proof.
  induction v as [v Hv|vm IH] using value_map_ind; intros p s Hpl.
  - destruct (Hpl [] v eq_refl) as [Hix _]. by destruct v.
  - rewrite leaves_at_map. simpl loopMap_at. rewrite map_fold_foldr.
    assert (p ≠ [EmptyString]) as Hp.
    { destruct (Hpl [] (VMap vm) eq_refl) as [_ H]. rewrite app_nil_r in H. by apply H. }
    assert (∀ k v, (k, v) ∈ map_to_list vm → vm !! k = Some v) as Hl.
    { intros k v. apply elem_of_map_to_list. }
    induction (map_to_list vm) as [|[k v] l IHl]; [done|].
    rewrite bind_cons. cbn [foldr uncurry]. rewrite foldr_app, <- IHl.
    + rewrite mx_Join by done. cbn [fst snd]. apply (IH k v).
      * apply Hl. left.
      * eapply plain_at_child; [done|]. apply Hl. left.
    + intros k' v' Hin. apply Hl. by right.
Qed.

Lemma loopMap_leaves (d : gmap string value) (s : Options) :
  plain_at [] (VMap d) →
  loopMap Sprint EmptyString d s = foldr SetNx_path s (leaves_at [] (VMap d)).
Proof. intros Hpl. apply (loopMap_at_leaves (VMap d) [] s Hpl). Qed.

End IngestFacts.

(** ** A list of separate calls *)

Lemma insert_path_id (p : list string) (v : value) (t : gmap string value) :
  p ≠ [] → descend (VMap t) p = Some v → insert_path p v t = t.
Proof.
  revert t. induction p as [|k ks IH]; intros t Hp Hd; [done|].
  rewrite descend_cons in Hd.
  destruct (t !! k) as [z|] eqn:Hz; [|done].
  destruct ks as [|k' ks].
  - simpl in *. injection Hd as ->. by apply insert_id.
  - rewrite insert_path_cons2. unfold child. rewrite Hz.
    destruct z; try done. rewrite IH by done. by apply insert_id.
Qed.

Lemma leaf_at_tree_at (s : Options) (r : list string) (x : value) :
  leaf_at s r = Some x → tree_at s r = Some x ∧ is_map x = false.
Proof.
  unfold leaf_at. destruct (tree_at s r) as [y|]; [|done].
  destruct (is_map y) eqn:Hy; [done|]. by intros [= <-].
Qed.

Lemma holds_exactly_nil : holds_exactly [] NewOptions.
Proof.
  assert (∀ r, leaf_at NewOptions r = None) as Hleaf.
  { intros [|k r]; [done|]. unfold leaf_at, tree_at. simpl.
    by rewrite lookup_empty. }
  split; [|split].
  - intros key. by rewrite Hleaf.
  - intros r x. rewrite Hleaf. split; [done|]. by intros ?%elem_of_nil.
  - intros [|k r]; [by left|]. unfold tree_at. simpl.
    rewrite lookup_empty. by intros [? ?].
Qed.

Lemma holds_exactly_again (p : list string) (v : value)
    (L : list (list string * value)) (s : Options) :
  (p, v) ∈ L → holds_exactly L s → holds_exactly ((p, v) :: L) s.
Proof.
  intros Hin (J1 & J2 & J3). split; [done|]. split.
  - intros r x. rewrite J2, elem_of_cons. split; [by right|].
    by intros [[= -> ->]|?].
  - intros r Hr. destruct (J3 r Hr) as [?|(q & x & Hq & Hpre)]; [by left|].
    right. exists q, x. split; [by right|done].
Qed.

Lemma holds_exactly_step (p : list string) (v : value)
    (L : list (list string * value)) (s : Options) :
  separate_calls ((p, v) :: L) →
  holds_exactly L s →
  holds_exactly ((p, v) :: L) (SetNx (Join dot p) v s).
Proof.
  intros [Hgood Hanti] HJ. pose proof HJ as (J1 & J2 & J3).
  destruct (Hgood p v) as (Hp & Hdf & Hv); [left|].
  assert (Split dot (Join dot p) = p) as Hsp by (by apply Split_Join).
  destruct (tree_at s p) as [y|] eqn:Ht.
  - (* the call is already in the store *)
    assert ((p, v) ∈ L) as Hin.
    { destruct (J3 p) as [?|(p2 & x2 & Hin2 & Hpre)]; [by rewrite Ht|done|].
      destruct (Hanti p v p2 x2) as [-> ->]; [left|by right|done|]. done. }
    assert (leaf_at s p = Some v) as Hleaf by (by apply J2).
    assert (SetNx (Join dot p) v s = s) as ->.
    { destruct (SetNx_cases (Join dot p) v s Hv) as [->| ->]; [done|].
      rewrite Hsp, insert_id, insert_path_id; [by destruct s|done| |].
      - apply leaf_at_tree_at in Hleaf as [Hleaf _]. exact Hleaf.
      - by rewrite J1, Hsp. }
    by apply holds_exactly_again.
  - (* a new call *)
    assert (∀ p2 x2, (p2, x2) ∈ L → apart p2 p) as Hapart.
    { intros p2 x2 Hin2.
      assert (p2 ≠ p) as Hne.
      { intros ->. apply J2 in Hin2. apply leaf_at_tree_at in Hin2 as [Hin2 _].
        congruence. }
      split; intros Hpre.
      - by destruct (Hanti p2 x2 p v) as [? _]; [by right|left|done|].
      - by destruct (Hanti p v p2 x2) as [? _]; [left|by right|done|]. }
    assert (∀ r x, leaf_at s r = Some x → apart r p) as Hleaf_apart.
    { intros r x Hr. apply (Hapart r x). by apply J2. }
    rewrite SetNx_stored by (done || (right; by rewrite Hsp)).
    split; [|split].
    + intros key. simpl. rewrite leaf_at_stored by done. rewrite Hsp.
      destruct (decide (key = Join dot p)) as [->|Hne].
      * by rewrite lookup_insert_eq, Hsp, decide_True.
      * rewrite lookup_insert_ne by done.
        rewrite decide_False.
        2:{ intros Heq. apply Hne. by rewrite <- Heq, Join_Split. }
        rewrite J1. destruct (decide (apart (Split dot key) p)) as [?|Hn]; [done|].
        destruct (leaf_at s (Split dot key)) as [x|] eqn:Hx; [|done].
        destruct Hn. by apply (Hleaf_apart _ x).
    + intros r x. rewrite leaf_at_stored by done. rewrite Hsp, elem_of_cons.
      destruct (decide (r = p)) as [->|Hne].
      * split; [intros [= <-]; by left|].
        intros [[= ->]|Hin]; [done|].
        destruct (Hapart p x Hin) as [H _]. by destruct H.
      * destruct (decide (apart r p)) as [Hap|Hnap].
        -- rewrite J2. split; [by right|]. by intros [[= -> ->]|?].
        -- split; [done|]. intros [[= -> ->]|Hin]; [done|].
           destruct Hnap. by apply (Hapart r x).
    + intros r. rewrite tree_at_stored by done. rewrite Hsp.
      destruct (decide (r = p)) as [->|Hne].
      { intros _. right. exists p, v. split; [left|done]. }
      destruct (decide (apart r p)) as [Hap|Hnap].
      { intros Hr. destruct (J3 r Hr) as [?|(q & x & Hq & Hpre)]; [by left|].
        right. exists q, x. split; [by right|done]. }
      destruct (decide (r `prefix_of` p)) as [Hpre|Hnpre].
      { intros _. right. exists p, v. split; [left|done]. }
      by intros [? ?].
Qed.

Lemma separate_calls_tail (pv : list string * value) (L : list (list string * value)) :
  separate_calls (pv :: L) → separate_calls L.
Proof.
  intros [H1 H2]. split.
  - intros p v Hin. apply H1. by right.
  - intros p1 v1 p2 v2 Hin1 Hin2. apply H2; by right.
Qed.

(** Separate calls, made in any order from an empty store, end in a
    store that holds exactly those calls. *)
Lemma separate_calls_run (L : list (list string * value)) :
  separate_calls L → holds_exactly L (foldr SetNx_path NewOptions L).
Proof.
  induction L as [|[p v] L IH]; intros Hsep; [apply holds_exactly_nil|].
  simpl. unfold SetNx_path at 1. simpl.
  apply holds_exactly_step; [done|]. apply IH. by eapply separate_calls_tail.
Qed.

Lemma option_ext {A : Type} (a b : option A) :
  (∀ x, a = Some x ↔ b = Some x) → a = b.
Proof.
  intros H. destruct a as [x|].
  - symmetry. by apply H.
  - destruct b as [y|]; [|done]. by apply H.
Qed.

(** The order of separate calls does not show in the flat map nor in
    the leaves of the hierarchy: the unspecified order in which [range]
    walks a map is immaterial for them. *)
Lemma separate_calls_any_order (L L' : list (list string * value)) :
  L ≡ₚ L' → separate_calls L →
  entries (foldr SetNx_path NewOptions L') = entries (foldr SetNx_path NewOptions L) ∧
  ∀ r, leaf_at (foldr SetNx_path NewOptions L') r
       = leaf_at (foldr SetNx_path NewOptions L) r.
Proof.
  intros Hperm Hsep.
  assert (separate_calls L') as Hsep'.
  { destruct Hsep as [H1 H2]. split.
    - intros p v Hin. apply H1. by rewrite Hperm.
    - intros p1 v1 p2 v2 Hin1 Hin2. apply H2; by rewrite Hperm. }
  destruct (separate_calls_run L Hsep) as (J1 & J2 & _).
  destruct (separate_calls_run L' Hsep') as (J1' & J2' & _).
  assert (∀ r, leaf_at (foldr SetNx_path NewOptions L') r
               = leaf_at (foldr SetNx_path NewOptions L) r) as Hleaf.
  { intros r. apply option_ext. intros x. by rewrite J2, J2', Hperm. }
  split; [|done]. apply map_eq. intros key. by rewrite J1, J1', Hleaf.
Qed.

(** ** Ingestion and re-ingestion *)

Lemma plain_doc_plain_at (d : gmap string value) :
  plain_doc d → plain_at [] (VMap d).
Proof.
  intros [H1 H2] q x Hq. split; [by apply (H1 q x)|].
  intros Hx Heq. simpl in Heq. subst q. simpl in Hq.
  destruct (d !! EmptyString) as [z|] eqn:Hz; [|done]. injection Hq as ->.
  destruct x; try done. by destruct (H2 m).
Qed.

Lemma leaves_separate (d : gmap string value) :
  plain_doc d → separate_calls (leaves_at [] (VMap d)).
Proof.
  intros [H1 H2]. split.
  - intros p v Hin. apply elem_of_leaves_at in Hin as (q & -> & Hq).
    simpl. apply leaf_of_is_leaf in Hq as [Hd Hv].
    split; [intros ->; simpl in Hd; by injection Hd as <-|].
    split; [by apply (H1 q v)|done].
  - intros p1 v1 p2 v2 Hin1 Hin2 [t ->].
    apply elem_of_leaves_at in Hin1 as (q1 & -> & Hq1).
    apply elem_of_leaves_at in Hin2 as (q2 & Heq & Hq2).
    simpl in *. subst q2.
    apply leaf_of_is_leaf in Hq1 as [Hd1 Hv1].
    apply leaf_of_is_leaf in Hq2 as [Hd2 Hv2].
    rewrite descend_app, Hd1 in Hd2.
    destruct t as [|k t]; [|by rewrite descend_leaf in Hd2].
    rewrite app_nil_r. simpl in Hd2. by injection Hd2 as ->.
Qed.

Section RoundTrip.
Variable Sprint : value → string.

(** Ingesting a plain document into an empty store: the flat map holds
    the leaves of the document under their joined paths, the hierarchy
    has the same leaves, and the hierarchy is a plain document again. *)
Lemma ingest_plain (d : gmap string value) :
  plain_doc d →
  let s := loopMap Sprint EmptyString d NewOptions in
  (∀ key, entries s !! key = leaf_of (VMap d) (Split dot key)) ∧
  (∀ r, leaf_at s r = leaf_of (VMap d) r) ∧
  plain_doc (hierarchy s).
Proof.
  intros Hpl s. pose proof Hpl as [Hd1 Hd2].
  assert (holds_exactly (leaves_at [] (VMap d)) s) as (J1 & J2 & J3).
  { unfold s. rewrite loopMap_leaves by (by apply plain_doc_plain_at).
    by apply separate_calls_run, leaves_separate. }
  assert (∀ r, leaf_at s r = leaf_of (VMap d) r) as Hleaf.
  { intros r. apply option_ext. intros x. rewrite J2, elem_of_leaves_at.
    split; [by intros (q & -> & Hq)|]. intros Hq. by exists r. }
  split; [intros key; by rewrite J1|]. split; [done|].
  assert (∀ q x, tree_at s q = Some x → is_map x = false →
                 descend (VMap d) q = Some x) as Hnode.
  { intros q x Hq Hx.
    assert (leaf_at s q = Some x) as Hl by (unfold leaf_at; by rewrite Hq, Hx).
    rewrite Hleaf in Hl. by apply leaf_of_is_leaf in Hl as [? _]. }
  split.
  - intros q x Hq. change (tree_at s q = Some x) in Hq. split.
    + destruct (J3 q) as [->|(p & y & Hin & Hpre)]; [by rewrite Hq|done|].
      apply elem_of_leaves_at in Hin as (q' & -> & Hq').
      apply leaf_of_is_leaf in Hq' as [Hd' _].
      destruct (Hd1 q' y Hd') as [Hall _]. simpl in Hpre.
      destruct Hpre as [t ->]. by apply Forall_app in Hall as [? _].
    + destruct (is_map x) eqn:Hx; [by destruct x|].
      by destruct (Hd1 q x (Hnode q x Hq Hx)).
  - intros m Hm.
    assert (tree_at s [EmptyString] = Some (VMap m)) as Ht.
    { unfold tree_at. simpl. fold s. by rewrite Hm. }
    destruct (J3 [EmptyString]) as [?|(p & y & Hin & [t ->])]; [by rewrite Ht|done|].
    apply J2 in Hin. apply leaf_at_tree_at in Hin as [Hin Hy].
    destruct t as [|k t].
    + simpl in Hin. rewrite Ht in Hin. injection Hin as <-. done.
    + apply (Hnode _ _ Hin) in Hy. simpl in Hy.
      destruct (d !! EmptyString) as [z|] eqn:Hz; [|done].
      destruct z; try done. by destruct (Hd2 m0).
Qed.


End RoundTrip.

Lemma plain_doc_owner :
  plain_doc {["owner" := VMap (<["name" := VStr "Tom"]> {["org" := VStr "GitHub"]})]}.
Proof.
  assert (∀ (q : list string) (x y : value),
            Forall dotfree q → is_ixmap y = false →
            Some y = Some x → Forall dotfree q ∧ is_ixmap x = false) as Hnode.
  { intros q x y Hq Hy [= <-]. by split. }
  split.
  - intros q x. destruct q as [|k q]; [by apply Hnode|].
    rewrite descend_cons.
    destruct (decide (k = "owner")) as [->|Hk];
      [|by rewrite lookup_singleton_ne].
    rewrite lookup_singleton_eq.
    destruct q as [|k' q]; [apply Hnode; by repeat constructor|].
    rewrite descend_cons.
    destruct (decide (k' = "name")) as [->|Hn].
    { rewrite lookup_insert_eq. destruct q; [|done].
      apply Hnode; by repeat constructor. }
    rewrite lookup_insert_ne by done.
    destruct (decide (k' = "org")) as [->|Ho];
      [|by rewrite lookup_singleton_ne].
    rewrite lookup_singleton_eq. destruct q; [|done].
    apply Hnode; by repeat constructor.
  - intros m. by rewrite lookup_singleton_ne.
Qed.



(** ** Worked examples *)

(** A nil written over a branch is dropped: flat map and hierarchy stay. *)
Example nil_over_branch :
  let s := Set_ ["app"] "a.b.c" (VInt 1) NewOptions in
  let s' := Set_ ["app"] "a.b" VNil s in
  s' = s ∧ Get s' "app.a.b.c" = VInt 1 ∧
  GetMapR ["app"] s' "a.b" = Some {["c" := VInt 1]}.
Proof. repeat split. Qed.

(** Setting a key twice to the same value is setting it once. *)
Example set_twice :
  Set_ ["app"] "logger.level" (VStr "DEBUG")
    (Set_ ["app"] "logger.level" (VStr "DEBUG") NewOptions)
  = Set_ ["app"] "logger.level" (VStr "DEBUG") NewOptions.
Proof. reflexivity. Qed.

(** [GetMap] on a leaf answers with the map that holds the leaf. *)
Example GetMap_on_leaf :
  let s := SetNx "a.b" (VInt 1) (SetNx "a.c" (VInt 2) NewOptions) in
  GetMap s "a.b" = GetMap s "a" ∧ GetMap s "a.x" = None.
Proof. split; reflexivity. Qed.

Example slices :
  let s := SetNx "y" (VInts [1; 2; 3]%Z) (SetNx "x" (VStr "a,b,c") NewOptions) in
  GetStringSlice Sprint0 Itoa0 s "x" = ["a"; "b"; "c"] ∧
  GetIntSlice Sprint0 Atoi0 s "y" = [1; 2; 3]%Z ∧
  GetIntSlice Sprint0 Atoi0 s "z" = [].
Proof. repeat split. Qed.

(** A later shorter key turns the branch into a leaf; the flat key below
    it stays. *)
Example leaf_over_branch :
  let s := SetNx "a" (VInt 5) (SetNx "a.b" (VInt 1) NewOptions) in
  Get s "a.b" = VInt 1 ∧ tree_at s ["a"; "b"] = None ∧ tree_at s ["a"] = Some (VInt 5).
Proof. repeat split. Qed.

(** * Further properties of the store *)

Lemma SetNx_entries_cases (key : string) (val : value) (s : Options) :
  entries (SetNx key val s) = entries s ∨
  entries (SetNx key val s) = <[key := val]> (entries s).
Proof.
  unfold SetNx. pose proof (Split_not_nil dot key) as Hn.
  destruct (Split dot key) as [|a0 rest]; [done|].
  destruct val; try (by right); destruct (getMapNoLock s key);
    (by left) || (by right).
Qed.



Lemma mergeMap_dom (m : gmap string value) (key : string) (val : value) :
  dom (mergeMap m key val) = {[key]} ∪ dom m.
Proof.
  rewrite mergeMap_eq.
  destruct (m !! key) as [[]|]; try apply dom_insert_L.
  destruct val; apply dom_insert_L.
Qed.

Lemma SetNx_hierarchy_cases (key : string) (val : value) (s : Options) :
  hierarchy (SetNx key val s) = hierarchy s ∨
  ∃ a0 rest, Split dot key = a0 :: rest ∧
    hierarchy (SetNx key val s) = mergeMap (hierarchy s) a0 (et rest val).
Proof.
  unfold SetNx. pose proof (Split_not_nil dot key) as Hn.
  destruct (Split dot key) as [|a0 rest]; [done|].
  destruct val; try (right; by exists a0, rest);
    destruct (getMapNoLock s key); (by left) || (right; by exists a0, rest).
Qed.

(** X2. No sequence of [Set] and [SetNx] calls, with values of any kind,
    removes a key from the flat map or a top-level key from the
    hierarchy. *)
Theorem calls_never_delete (RxxtPrefix : list string) (cs : list call) (s : Options) :
  dom (entries s) ⊆ dom (entries (run_calls RxxtPrefix cs s)) ∧
  dom (hierarchy s) ⊆ dom (hierarchy (run_calls RxxtPrefix cs s)).
Proof.
  revert s. induction cs as [|c cs IH]; intros s; [done|].
  simpl. destruct (IH (run_call RxxtPrefix c s)) as [IH1 IH2].
  assert (∀ key val, dom (entries s) ⊆ dom (entries (SetNx key val s)) ∧
                     dom (hierarchy s) ⊆ dom (hierarchy (SetNx key val s))) as Hstep.
  { intros key val. split.
    - destruct (SetNx_entries_cases key val s) as [-> | ->]; [done|].
      rewrite dom_insert_L. apply union_subseteq_r.
    - destruct (SetNx_hierarchy_cases key val s) as [-> |(a0 & rest & _ & ->)]; [done|].
      rewrite mergeMap_dom. apply union_subseteq_r. }
  assert (dom (entries s) ⊆ dom (entries (run_call RxxtPrefix c s)) ∧
          dom (hierarchy s) ⊆ dom (hierarchy (run_call RxxtPrefix c s))) as [H1 H2].
  { destruct c; apply Hstep. }
  split; etrans; eauto.
Qed.

(** X3. Writing the same value twice under the same key is writing it
    once: for a value that is not a map, nil included, the second
    [SetNx] changes neither the flat map nor the hierarchy. *)
Theorem SetNx_idempotent (key : string) (val : value) (s : Options) :
  is_map val = false →
  SetNx key val (SetNx key val s) = SetNx key val s.
Proof.
  intros Hval.
  destruct (SetNx_cases key val s Hval) as [Heq|Heq].
  { by rewrite !Heq. }
  rewrite Heq.
  set (s1 := mkOptions (<[key := val]> (entries s))
                       (insert_path (Split dot key) val (hierarchy s))).
  destruct (SetNx_cases key val s1 Hval) as [->| ->]; [done|].
  unfold s1. simpl. rewrite insert_insert_eq. f_equal.
  apply insert_path_id; [apply Split_not_nil|].
  apply descend_insert_path_eq, Split_not_nil.
Qed.

Lemma SetNx_idempotent_witness :
  is_map VNil = false ∧
  SetNx "a.b" VNil (SetNx "a.b" VNil NewOptions) = SetNx "a.b" VNil NewOptions.
Proof. split; [done|]. by apply SetNx_idempotent. Defined.

Lemma append_cancel_l (p a b : string) : (p +:+ a = p +:+ b)%string → a = b.
Proof.
  induction p as [|c p IH]; [done|]. intros H.
  change (String c (p +:+ a) = String c (p +:+ b))%string in H.
  injection H as H. by apply IH.
Qed.

Lemma append_length (a b : string) :
  String.length (a +:+ b)%string = String.length a + String.length b.
Proof.
  induction a as [|c a IH]; [done|].
  change (S (String.length (a +:+ b)%string) = S (String.length a + String.length b)).
  by rewrite IH.
Qed.

(** X4. Wrapping with the prefix loses nothing: two different keys stay
    different, so [Set] on different keys never writes the same flat
    key. The empty key is wrapped to the prefix itself, without a
    trailing dot, and an empty prefix wraps every key to itself. *)
Theorem wrapWithRxxtPrefix_injective (RxxtPrefix : list string) :
  (∀ k1 k2, wrapWithRxxtPrefix RxxtPrefix k1 = wrapWithRxxtPrefix RxxtPrefix k2 →
            k1 = k2) ∧
  (RxxtPrefix ≠ [] → wrapWithRxxtPrefix RxxtPrefix EmptyString = Join dot RxxtPrefix) ∧
  (∀ k, wrapWithRxxtPrefix [] k = k).
Proof.
  split; [|split; [by destruct RxxtPrefix|done]].
  intros k1 k2. unfold wrapWithRxxtPrefix.
  destruct RxxtPrefix as [|x l]; [done|].
  set (p := Join dot (x :: l)).
  assert (∀ k c, p ≠ (p +:+ String c k)%string) as Hlen.
  { intros k c H. apply (f_equal String.length) in H.
    rewrite append_length in H. simpl in H. lia. }
  destruct k1 as [|c1 k1], k2 as [|c2 k2]; try done.
  - intros H. by destruct (Hlen (String c2 k2) dot).
  - intros H. symmetry in H. by destruct (Hlen (String c1 k1) dot).
  - intros H. apply append_cancel_l in H. congruence.
Qed.

Lemma wrapWithRxxtPrefix_injective_witness :
  wrapWithRxxtPrefix ["app"] "debug" = wrapWithRxxtPrefix ["app"] "debug" ∧
  "debug" = "debug".
Proof.
  split; [done|].
  by apply (proj1 (wrapWithRxxtPrefix_injective ["app"])).
Defined.

(** X5. What [SetNx] leaves in the hierarchy for a value that is neither
    a map nor nil: the path of the key leads to the value, every proper
    beginning of the path leads to a map, nothing lies below the value,
    and the nodes off the path are as before. *)
Theorem SetNx_tree (key : string) (val : value) (s : Options) :
  is_map val = false → val ≠ VNil →
  let s' := SetNx key val s in
  tree_at s' (Split dot key) = Some val ∧
  (∀ r x t, Split dot key = r ++ x :: t → ∃ m, tree_at s' r = Some (VMap m)) ∧
  (∀ x t, tree_at s' (Split dot key ++ x :: t) = None) ∧
  (∀ r, apart r (Split dot key) → tree_at s' r = tree_at s r).
Proof.
  intros Hval Hnil s'. unfold s'.
  rewrite SetNx_stored by (done || by left).
  pose proof (Split_not_nil dot key) as Hn.
  unfold tree_at. simpl. split; [by apply descend_insert_path_eq|].
  split; [|split].
  - intros r x t ->. apply descend_insert_path_above.
  - intros x t. by apply descend_insert_path_below.
  - intros r Hr. by apply descend_insert_path_apart.
Qed.

Lemma SetNx_tree_witness :
  is_map (VInt 8500) = false ∧ VInt 8500 ≠ VNil ∧
  tree_at (SetNx "ms.tags.port" (VInt 8500) NewOptions) (Split dot "ms.tags.port")
  = Some (VInt 8500).
Proof.
  split; [done|]. split; [done|].
  by apply (SetNx_tree "ms.tags.port" (VInt 8500) NewOptions).
Defined.

Lemma getMap_path_leaf (q : list string) :
  ∀ (vp : gmap string value) (k : string) (x : value),
    descend (VMap vp) (q ++ [k]) = Some x → is_map x = false →
    ∃ parent, descend (VMap vp) q = Some (VMap parent) ∧
              getMap_path vp (q ++ [k]) = Some parent ∧
              parent !! k = Some x.
Proof.
  induction q as [|a q IH]; intros vp k x Hd Hx.
  - simpl in *. destruct (vp !! k) as [z|] eqn:Hz; [|done].
    injection Hd as ->. exists vp. split; [done|]. split; [|done].
    by destruct x.
  - change ((a :: q) ++ [k]) with (a :: (q ++ [k])) in *.
    rewrite descend_cons in Hd.
    destruct (vp !! a) as [z|] eqn:Hz; [|done].
    assert (∃ r rs, q ++ [k] = r :: rs) as (r & rs & Hq).
    { destruct q; simpl; eauto. }
    destruct z; try (by rewrite Hq in Hd).
    destruct (IH m k x Hd Hx) as (parent & Hp1 & Hp2 & Hp3).
    exists parent. split; [by rewrite descend_cons, Hz|]. split; [|done].
    rewrite Hq in Hp2 |- *. simpl in *. by rewrite Hz.
Qed.

(** X6. [GetMap] in full. Where the path of the key leads to a map, that
    map is the answer. Where it leads to a leaf, the answer is the map
    that holds the leaf, so the leaf is found in the answer under the
    last segment. Where a segment is missing, or a leaf lies on the way,
    the answer is nil. *)
Theorem GetMap_cases (s : Options) (key : string) :
  (∀ m, tree_at s (Split dot key) = Some (VMap m) → GetMap s key = Some m) ∧
  (∀ q k x, Split dot key = q ++ [k] → tree_at s (q ++ [k]) = Some x →
            is_map x = false →
            ∃ parent, tree_at s q = Some (VMap parent) ∧
                      GetMap s key = Some parent ∧ parent !! k = Some x) ∧
  (tree_at s (Split dot key) = None ↔ GetMap s key = None).
Proof.
  split; [|split].
  - intros m Hm. unfold GetMap, getMapNoLock, tree_at in *.
    pose proof (Split_not_nil dot key) as Hn.
    destruct (Split dot key) as [|a0 rest]; [done|]. by apply getMap_branch.
  - intros q k x Hsp Hx Hleaf.
    destruct (getMap_path_leaf q (hierarchy s) k x Hx Hleaf) as (parent & H1 & H2 & H3).
    exists parent. split; [done|]. split; [|done].
    unfold GetMap, getMapNoLock. rewrite Hsp. exact H2.
  - pose proof (getMapNoLock_is_Some s key) as H. unfold GetMap.
    rewrite !eq_None_not_Some. by rewrite H.
Qed.

Lemma GetMap_cases_witness :
  let s := SetNx "a.c" (VInt 2) (SetNx "a.b" (VInt 1) NewOptions) in
  Split dot "a.b" = ["a"] ++ ["b"] ∧
  tree_at s (["a"] ++ ["b"]) = Some (VInt 1) ∧
  is_map (VInt 1) = false ∧
  ∃ parent, GetMap s "a.b" = Some parent ∧ parent !! "b" = Some (VInt 1).
Proof.
  intros s. split; [done|]. split; [done|]. split; [done|].
  destruct (proj1 (proj2 (GetMap_cases s "a.b")) ["a"] "b" (VInt 1))
    as (parent & _ & H2 & H3); [done..|].
  by exists parent.
Defined.

(** ** Slices *)

Section MoreSliceFacts.
Variable Sprint : value → string.
Variable Atoi : string → option Z.
Variable Itoa : Z → string.

(** X7. For a stored string the string slice is never empty (the empty
    string gives one empty element), no element holds a comma, and
    joining the elements with commas gives the stored string back. *)
Theorem GetStringSlice_of_string (s : Options) (key x : string) :
  entries s !! key = Some (VStr x) →
  GetStringSlice Sprint Itoa s key ≠ [] ∧
  Forall (fun e => contains comma e = false) (GetStringSlice Sprint Itoa s key) ∧
  Join comma (GetStringSlice Sprint Itoa s key) = x.
Proof.
  intros Hk. unfold GetStringSlice. rewrite Hk. simpl.
  split; [apply Split_not_nil|]. split; [apply Split_segments|apply Join_Split].
Qed.

Lemma omap_length_le {A B : Type} (f : A → option B) (l : list A) :
  (List.length (omap f l) ≤ List.length l)%nat.
Proof.
  induction l as [|x l IH]; [done|]. csimpl. destruct (f x); simpl; lia.
Qed.

(** X8. [stringSliceToIntSlice] keeps the numbers of the elements that
    [strconv.Atoi] accepts, in their order, and skips the others: the
    result is never longer than the input, it is the input element by
    element when every element parses, and it is empty when none
    does. *)
Theorem stringSliceToIntSlice_skips (l : list string) :
  (List.length (stringSliceToIntSlice Atoi l) ≤ List.length l)%nat ∧
  (∀ n, n ∈ stringSliceToIntSlice Atoi l ↔ ∃ x, x ∈ l ∧ Atoi x = Some n) ∧
  (∀ l', stringSliceToIntSlice Atoi (l ++ l')
         = stringSliceToIntSlice Atoi l ++ stringSliceToIntSlice Atoi l') ∧
  (Forall (fun x => is_Some (Atoi x)) l →
   Some <$> stringSliceToIntSlice Atoi l = Atoi <$> l) ∧
  (Forall (fun x => Atoi x = None) l → stringSliceToIntSlice Atoi l = []).
Proof.
  unfold stringSliceToIntSlice.
  split; [apply omap_length_le|]. split; [intros n; apply list_elem_of_omap|].
  split; [intros l'; apply omap_app|]. split.
  - induction 1 as [|x l [n Hn] Hl IH]; [done|]. csimpl. rewrite Hn. csimpl.
    by rewrite IH.
  - induction 1 as [|x l Hn Hl IH]; [done|]. csimpl. by rewrite Hn.
Qed.

(** X9. The int slice is the string slice parsed: for every key, present
    or not, and every stored value other than a [[]int],
    [GetIntSlice] is [stringSliceToIntSlice] of [GetStringSlice]; for a
    [[]int] the same holds as soon as [Atoi] reads back what [Itoa]
    prints for its elements. *)
Theorem GetIntSlice_via_strings (s : Options) (key : string) :
  ((∀ ri, entries s !! key ≠ Some (VInts ri)) →
   GetIntSlice Sprint Atoi s key
   = stringSliceToIntSlice Atoi (GetStringSlice Sprint Itoa s key)) ∧
  (∀ ri, entries s !! key = Some (VInts ri) →
         Forall (fun n => Atoi (Itoa n) = Some n) ri →
         GetIntSlice Sprint Atoi s key
         = stringSliceToIntSlice Atoi (GetStringSlice Sprint Itoa s key)).
Proof.
  unfold GetIntSlice, GetStringSlice. split.
  - intros Hno. destruct (entries s !! key) as [v|]; [|done].
    destruct v; try done. by destruct (Hno l).
  - intros ri -> Hall. simpl. unfold stringSliceToIntSlice.
    induction Hall as [|n ri Hn Hri IH]; [done|]. csimpl. rewrite Hn. csimpl.
    by rewrite <- IH.
Qed.

End MoreSliceFacts.

Lemma GetStringSlice_of_string_witness :
  let s := SetNx "x" (VStr "a,,b") NewOptions in
  entries s !! "x" = Some (VStr "a,,b") ∧
  Join comma (GetStringSlice Sprint0 Itoa0 s "x") = "a,,b".
Proof.
  intros s. split; [done|].
  by apply (GetStringSlice_of_string Sprint0 Itoa0 s "x" "a,,b").
Defined.

Lemma stringSliceToIntSlice_skips_witness :
  Forall (fun x => Atoi0 x = None) ["1"; "x"] ∧
  stringSliceToIntSlice Atoi0 ["1"; "x"] = [].
Proof.
  assert (Forall (fun x => Atoi0 x = None) ["1"; "x"]) as H by (by repeat constructor).
  split; [done|].
  by apply (stringSliceToIntSlice_skips Atoi0 ["1"; "x"]).
Defined.

Lemma GetIntSlice_via_strings_witness :
  let Atoi := fun x : string => if String.eqb x "7" then Some 7%Z else None in
  let Itoa := fun n : Z => if Z.eqb n 7 then "7" else EmptyString in
  let s := SetNx "ports" (VInts [7%Z; 7%Z]) NewOptions in
  entries s !! "ports" = Some (VInts [7%Z; 7%Z]) ∧
  Forall (fun n => Atoi (Itoa n) = Some n) [7%Z; 7%Z] ∧
  GetIntSlice Sprint0 Atoi s "ports"
  = stringSliceToIntSlice Atoi (GetStringSlice Sprint0 Itoa s "ports").
Proof.
  intros Atoi Itoa s.
  assert (Forall (fun n => Atoi (Itoa n) = Some n) [7%Z; 7%Z]) as H
    by (by repeat constructor).
  split; [done|]. split; [done|].
  by apply (proj2 (GetIntSlice_via_strings Sprint0 Atoi Itoa s "ports") [7%Z; 7%Z]).
Defined.

(** ** Tree update, once more *)

(** X10. [mergeMap] adds its key to the keys of the map and removes
    none, and two merges at different keys can be swapped: the order in
    which the loop of [mergeMap] meets the children of the incoming map
    is immaterial. *)
Theorem mergeMap_keys_and_order (m : gmap string value) :
  (∀ key val, dom (mergeMap m key val) = {[key]} ∪ dom m) ∧
  (∀ k1 k2 v1 v2, k1 ≠ k2 →
     mergeMap (mergeMap m k1 v1) k2 v2 = mergeMap (mergeMap m k2 v2) k1 v1).
Proof. split; [apply mergeMap_dom|intros; by apply mergeMap_comm]. Qed.

Lemma mergeMap_keys_and_order_witness :
  "a" ≠ "b" ∧
  mergeMap (mergeMap ∅ "a" (VInt 1)) "b" (VInt 2)
  = mergeMap (mergeMap ∅ "b" (VInt 2)) "a" (VInt 1).
Proof. split; [done|]. by apply (proj2 (mergeMap_keys_and_order ∅)). Defined.

(** ** Ingestion, once more *)

Section MoreIngestFacts.
Variable Sprint : value → string.


(** X12. Ingesting a plain document into an empty store: [Get] answers
    with the leaf of the document for the joined path of every leaf, and
    with nil for every key whose path does not end in a leaf; nested
    maps themselves are no flat entries. The result does not depend on
    the order in which the leaves are stored. *)
Theorem ingest_then_Get (d : gmap string value) :
  plain_doc d →
  let s := loopMap Sprint EmptyString d NewOptions in
  (∀ q x, leaf_of (VMap d) q = Some x → Get s (Join dot q) = x) ∧
  (∀ key, leaf_of (VMap d) (Split dot key) = None → Get s key = VNil) ∧
  (∀ L, L ≡ₚ leaves_at [] (VMap d) →
        entries (foldr SetNx_path NewOptions L) = entries s).
Proof.
  intros Hd s. destruct (ingest_plain Sprint d Hd) as (He & _ & _). fold s in He.
  pose proof (leaves_separate d Hd) as Hsep.
  split; [|split].
  - intros q x Hq. unfold Get. rewrite He.
    assert ((q, x) ∈ leaves_at [] (VMap d)) as Hin.
    { apply elem_of_leaves_at. by exists q. }
    destruct (proj1 Hsep q x Hin) as (Hne & Hdf & _).
    rewrite Split_Join by done. by rewrite Hq.
  - intros key Hk. unfold Get. by rewrite He, Hk.
  - intros L HL. unfold s.
    rewrite loopMap_leaves by (by apply plain_doc_plain_at).
    symmetry in HL. by destruct (separate_calls_any_order _ _ HL Hsep) as [-> _].
Qed.

End MoreIngestFacts.

Lemma ingest_then_Get_witness :
  let doc : gmap string value :=
    {["owner" := VMap (<["name" := VStr "Tom"]> {["org" := VStr "GitHub"]})]} in
  plain_doc doc ∧
  leaf_of (VMap doc) ["owner"; "org"] = Some (VStr "GitHub") ∧
  Get (loopMap Sprint0 EmptyString doc NewOptions) (Join dot ["owner"; "org"])
  = VStr "GitHub".
Proof.
  intros doc. split; [apply plain_doc_owner|]. split; [done|].
  by apply (proj1 (ingest_then_Get Sprint0 doc plain_doc_owner)).
Defined.

(** ** Environment overlay, once more *)

Lemma HasPrefix_refl (p : string) : HasPrefix p p = true.
Proof. induction p as [|c p IH]; [done|]. simpl. by rewrite Ascii.eqb_refl. Qed.

Lemma slice_from_beyond (p : string) : slice_from (String.length p + 1) p = None.
Proof. induction p as [|c p IH]; [done|]. apply IH. Qed.

Lemma HasPrefix_wrap (RxxtPrefix : list string) (key : string) :
  RxxtPrefix ≠ [] →
  HasPrefix (wrapWithRxxtPrefix RxxtPrefix key) (Join dot RxxtPrefix) = true.
Proof.
  intros Hp. unfold wrapWithRxxtPrefix. destruct RxxtPrefix as [|x l]; [done|].
  destruct key; [apply HasPrefix_refl|apply HasPrefix_app].
Qed.

Lemma dots_dashes_ReplaceAll (key : string) (a b : ascii) :
  (a = dot ∨ a = dash ∨ a = underscore) → (b = dot ∨ b = dash ∨ b = underscore) →
  dots_dashes_to_underscores (ReplaceAll key a b) = dots_dashes_to_underscores key.
Proof.
  intros Ha Hb. induction key as [|c key IH]; [done|].
  simpl. rewrite IH. f_equal.
  destruct (Ascii.eqb_spec c a) as [->|Hne]; [|done].
  destruct Ha as [->|[->| ->]], Hb as [->|[->| ->]]; reflexivity.
Qed.

Section MoreEnvFacts.
Variable ToUpper : string → string.
Variable EnvPrefix RxxtPrefix : list string.
Variable LookupEnv : string → option string.

Local Abbreviation envKey_ := (envKey ToUpper EnvPrefix).
Local Abbreviation overlayKey_ :=
  (overlayKey ToUpper EnvPrefix RxxtPrefix LookupEnv).
Local Abbreviation buildAutomaticEnv_ :=
  (buildAutomaticEnv ToUpper EnvPrefix RxxtPrefix LookupEnv).

(** X13. A flat key that is exactly the dotted prefix, with its variable
    set, stops the pass: the slice [key[len(p)+1:]] is out of range, for
    the key itself and for every sequence of keys in which it is the
    first one with a variable set. *)
Theorem overlay_panics_on_prefix_key (v : string) (before after : list string)
    (s : Options) :
  LookupEnv (envKey_ (Join dot RxxtPrefix)) = Some v →
  (∀ k, k ∈ before → LookupEnv (envKey_ k) = None) →
  overlayKey_ (Join dot RxxtPrefix) s = None ∧
  buildAutomaticEnv_ (before ++ Join dot RxxtPrefix :: after) s = None.
Proof.
  intros Hv Hbefore.
  assert (∀ s0, overlayKey_ (Join dot RxxtPrefix) s0 = None) as Hpanic.
  { intros s0. unfold overlayKey. rewrite Hv, HasPrefix_refl.
    by rewrite slice_from_beyond. }
  split; [apply Hpanic|].
  induction before as [|k before IH]; simpl.
  - by rewrite Hpanic.
  - unfold overlayKey at 1. rewrite (Hbefore k) by left.
    apply IH. intros k' Hk'. apply Hbefore. by right.
Qed.


(** X15. With none of the derived variables set, the pass returns the
    store as it was, whatever keys it visits. *)
Theorem overlay_without_variables (visit : list string) (s : Options) :
  (∀ k, k ∈ visit → LookupEnv (envKey_ k) = None) →
  buildAutomaticEnv_ visit s = Some s.
Proof.
  intros Hnone. induction visit as [|k visit IH]; [done|].
  simpl. unfold overlayKey at 1. rewrite (Hnone k) by left.
  apply IH. intros k' Hk'. apply Hnone. by right.
Qed.

(** X16. The name of the variable does not tell '.', '-' and '_' apart:
    a key and the same key with one of these three bytes replaced by
    another of them throughout have the same variable. *)
Theorem envKey_separators (key : string) (a b : ascii) :
  (a = dot ∨ a = dash ∨ a = underscore) → (b = dot ∨ b = dash ∨ b = underscore) →
  envKey_ (ReplaceAll key a b) = envKey_ key.
Proof.
  intros Ha Hb. rewrite !envKey_doc. unfold doc_envName.
  by rewrite dots_dashes_ReplaceAll.
Qed.

End MoreEnvFacts.

Lemma overlay_panics_on_prefix_key_witness :
  let env := env_one "CMDR_APP" "x" in
  env (envKey ascii_upper ["CMDR"] (Join dot ["app"])) = Some "x" ∧
  (∀ k, k ∈ ["app.debug"] → env (envKey ascii_upper ["CMDR"] k) = None) ∧
  buildAutomaticEnv ascii_upper ["CMDR"] ["app"] env
    (["app.debug"] ++ Join dot ["app"] :: []) NewOptions = None.
Proof.
  intros env.
  assert (∀ k, k ∈ ["app.debug"] → env (envKey ascii_upper ["CMDR"] k) = None) as Hb.
  { intros k Hk. by apply list_elem_of_singleton in Hk as ->. }
  split; [done|]. split; [done|].
  by apply (overlay_panics_on_prefix_key ascii_upper ["CMDR"] ["app"] env "x"
              ["app.debug"] [] NewOptions).
Defined.


Lemma overlay_without_variables_witness :
  let env : string → option string := fun _ => None in
  let s := SetNx "app.debug" (VBool true) NewOptions in
  (∀ k, k ∈ ["app.debug"] → env (envKey ascii_upper ["CMDR"] k) = None) ∧
  buildAutomaticEnv ascii_upper ["CMDR"] ["app"] env ["app.debug"] s = Some s.
Proof.
  intros env s. split; [done|].
  by apply (overlay_without_variables ascii_upper ["CMDR"] ["app"] env).
Defined.

Lemma envKey_separators_witness :
  (dot = dot ∨ dot = dash ∨ dot = underscore) ∧
  (dash = dot ∨ dash = dash ∨ dash = underscore) ∧
  envKey ascii_upper ["CMDR"] (ReplaceAll "app.log-level" dot dash)
  = envKey ascii_upper ["CMDR"] "app.log-level".
Proof.
  split; [by left|]. split; [right; by left|].
  apply (envKey_separators ascii_upper ["CMDR"] "app.log-level" dot dash);
    [by left | right; by left].
Defined.

(** ** Reset, once more *)

(** X17. [Reset] gives later writes no clean hierarchy: a [SetNx] after
    [Reset] leaves the hierarchy that the same [SetNx] without [Reset]
    would have left, [GetMap] answers as before the [Reset], and a nil
    written for a key whose path is still in the hierarchy is dropped,
    so the flat map stays empty. *)
Theorem Reset_keeps_tree (s : Options) (key : string) :
  (∀ val, hierarchy (SetNx key val (Reset s)) = hierarchy (SetNx key val s)) ∧
  GetMap (Reset s) key = GetMap s key ∧
  (is_Some (tree_at s (Split dot key)) →
   SetNx key VNil (Reset s) = Reset s ∧ entries (SetNx key VNil (Reset s)) = ∅).
Proof.
  split; [|split].
  - intros val. unfold SetNx.
    change (getMapNoLock (Reset s) key) with (getMapNoLock s key).
    destruct (Split dot key) as [|a0 rest];
      destruct val; try done; by destruct (getMapNoLock s key).
  - done.
  - intros Hs.
    assert (SetNx key VNil (Reset s) = Reset s) as ->; [|done].
    by apply SetNx_guarded.
Qed.

Lemma Reset_keeps_tree_witness :
  let s := SetNx "a.b" (VInt 1) NewOptions in
  is_Some (tree_at s (Split dot "a.b")) ∧
  entries (SetNx "a.b" VNil (Reset s)) = ∅.
Proof.
  intros s.
  assert (is_Some (tree_at s (Split dot "a.b"))) as H by (by eexists).
  split; [done|].
  by apply (proj2 (proj2 (Reset_keeps_tree s "a.b"))).
Defined.

(** * Package tool *)

Module ToolFacts.
Import Tool.

Lemma HasPrefix_split (p s : string) :
  HasPrefix s p = true →
  ∃ r, s = (p +:+ r)%string ∧ slice_from (String.length p) s = Some r.
Proof.
  revert s. induction p as [|c p IH]; intros s H; [by exists s|].
  destruct s as [|b s]; [done|]. simpl in H.
  apply andb_prop in H as [Hc Hp]. apply Ascii.eqb_eq in Hc as ->.
  destruct (IH s Hp) as (r & -> & Hr). by exists r.
Qed.

(** X18. [stripPrefix] never slices out of range. Under a prefix [p] the
    result is what follows the prefix, so that [p] and the result make
    up the string again; without the prefix the string comes back as it
    is. Stripping [p] from [p] followed by [s] gives [s]. *)
Theorem stripPrefix_spec (s p : string) :
  (∃ r, stripPrefix s p = Some r ∧
        (HasPrefix s p = true → s = (p +:+ r)%string) ∧
        (HasPrefix s p = false → r = s)) ∧
  stripPrefix (p +:+ s)%string p = Some s.
Proof.
  split.
  - unfold stripPrefix. destruct (HasPrefix s p) eqn:Hp.
    + destruct (HasPrefix_split p s Hp) as (r & Hs & Hr).
      exists r. by rewrite Hr.
    + by exists s.
  - unfold stripPrefix. rewrite HasPrefix_app.
    induction p as [|c p IH]; [done|]. apply IH.
Qed.

Lemma soundex_fold (rest tgt : list rune) :
  fold_left (fun tgt ch => tgt ++ soundex_code ch) rest tgt
  = tgt ++ flat_map soundex_code rest.
Proof.
  revert tgt. induction rest as [|ch rest IH]; intros tgt; simpl.
  - by rewrite app_nil_r.
  - by rewrite IH, <- app_assoc.
Qed.

Lemma soundex_cons_sign (c : rune) (src : list rune) :
  in_case c "-~+" = true → soundex (c :: src) = soundex src.
Proof. intros Hc. unfold soundex. simpl soundex_first. by rewrite Hc. Qed.

Lemma soundex_cons_first (c : rune) (src : list rune) :
  in_case c "-~+" = false →
  soundex (c :: src) = c :: soundex_code c ++ flat_map soundex_code src.
Proof.
  intros Hc. unfold soundex. simpl soundex_first. rewrite Hc.
  by rewrite soundex_fold.
Qed.

Lemma soundex_code_digit (ch : rune) :
  Forall (fun d => (rune_of "1" ≤ d ≤ rune_of "6")%Z) (soundex_code ch) ∧
  (List.length (soundex_code ch) ≤ 1)%nat.
Proof.
  unfold soundex_code.
  repeat match goal with
         | |- context [if ?b then _ else _] => destruct b
         end; split; repeat constructor; done.
Qed.

Lemma flat_map_soundex_code (l : list rune) :
  Forall (fun d => (rune_of "1" ≤ d ≤ rune_of "6")%Z) (flat_map soundex_code l) ∧
  (List.length (flat_map soundex_code l) ≤ List.length l)%nat.
Proof.
  induction l as [|ch l [IH1 IH2]]; [by split|]. simpl.
  destruct (soundex_code_digit ch) as [H1 H2].
  split; [by apply Forall_app|]. rewrite length_app. lia.
Qed.


(** X20. What [soundex] does not look at: the runes '-', '~' and '+' in
    front of the word, and, after the first rune it keeps, every rune
    that stands in none of its lists of consonants, vowels and capital
    letters among them. The first rune kept is itself given its digit:
    tags has the value t322. *)
Theorem soundex_ignores :
  (∀ c src, in_case c "-~+" = true → soundex (c :: src) = soundex src) ∧
  (∀ c l1 v l2, in_case c "-~+" = false → soundex_code v = [] →
                soundex (c :: l1 ++ v :: l2) = soundex (c :: l1 ++ l2)) ∧
  soundex (map rune_of (list_ascii_of_string "tags"))
  = map rune_of (list_ascii_of_string "t322").
Proof.
  split; [apply soundex_cons_sign|]. split; [|reflexivity].
  intros c l1 v l2 Hc Hv. rewrite !soundex_cons_first by done.
  do 2 f_equal. rewrite !flat_map_app. simpl. by rewrite Hv.
Qed.

Lemma soundex_ignores_witness :
  in_case (rune_of "t") "-~+" = false ∧ soundex_code (rune_of "A") = [] ∧
  soundex (rune_of "t" :: [rune_of "g"] ++ rune_of "A" :: [rune_of "s"])
  = soundex (rune_of "t" :: [rune_of "g"] ++ [rune_of "s"]).
Proof.
  split; [done|]. split; [done|].
  by apply (proj1 (proj2 soundex_ignores)).
Defined.

Lemma is_alnum_dot : is_alnum dot = false.
Proof. reflexivity. Qed.

Lemma span_alnum_app (a r : string) :
  all_alnum a = true →
  span_alnum (a +:+ String dot r)%string = (a, String dot r).
Proof.
  induction a as [|c a IH]; [done|]. simpl. intros H.
  apply andb_prop in H as [Hc Ha]. by rewrite Hc, IH.
Qed.

Lemma span_alnum_split (s : string) :
  ∀ a rest, span_alnum s = (a, rest) → s = (a +:+ rest)%string ∧ all_alnum a = true.
Proof.
  induction s as [|c s IH]; intros a rest; simpl.
  - by intros [= <- <-].
  - destruct (is_alnum c) eqn:Hc; [|by intros [= <- <-]].
    destruct (span_alnum s) as [a' rest'] eqn:Hs. intros [= <- <-].
    destruct (IH a' rest' eq_refl) as [-> Ha]. simpl. by rewrite Hc.
Qed.

Lemma Index_dot_app (a r : string) :
  all_alnum a = true →
  Index_dot (a +:+ String dot r)%string = Z.of_nat (String.length a).
Proof.
  induction a as [|c a IH]; [done|]. intros H. simpl in H.
  apply andb_prop in H as [Hc Ha].
  change (Index_dot (String c (a +:+ String dot r)%string)
          = Z.of_nat (S (String.length a))).
  simpl Index_dot. rewrite (IH Ha).
  destruct (Ascii.eqb_spec c dot) as [->|Hne]; [by rewrite is_alnum_dot in Hc|].
  destruct (Z.ltb_spec (Z.of_nat (String.length a)) 0); lia.
Qed.

Lemma all_digits_alnum (s : string) : all_digits s = true → all_alnum s = true.
Proof.
  induction s as [|c s IH]; [done|]. simpl. intros H.
  apply andb_prop in H as [Hc Hs]. rewrite (IH Hs).
  unfold is_alnum. by rewrite Hc.
Qed.

Lemma span_alnum_all (s : string) :
  all_alnum s = true → span_alnum s = (s, EmptyString).
Proof.
  induction s as [|c s IH]; [done|]. simpl. intros H.
  apply andb_prop in H as [Hc Hs]. by rewrite Hc, (IH Hs).
Qed.

(** X21. The order prefix. A string made of one or more letters or
    digits, a dot, and a rest that is not empty and has no newline has
    an order prefix, and [StripOrderPrefix] returns the rest; every
    string with an order prefix is of that form. A string without one
    comes back as it is, a string of digits only has none, and the
    slice in [StripOrderPrefix] is never out of range. *)
Theorem StripOrderPrefix_spec :
  (∀ a r, a ≠ EmptyString → all_alnum a = true →
          r ≠ EmptyString → contains newline r = false →
          HasOrderPrefix (a +:+ String dot r)%string = true ∧
          StripOrderPrefix (a +:+ String dot r)%string = Some r) ∧
  (∀ s, HasOrderPrefix s = true →
        ∃ a r, s = (a +:+ String dot r)%string ∧ a ≠ EmptyString ∧
               all_alnum a = true ∧ r ≠ EmptyString ∧
               contains newline r = false ∧ StripOrderPrefix s = Some r) ∧
  (∀ s, HasOrderPrefix s = false → StripOrderPrefix s = Some s) ∧
  (∀ s, IsDigitHeavy s = true →
        HasOrderPrefix s = false ∧ StripOrderPrefix s = Some s).
Proof.
  assert (∀ a r, a ≠ EmptyString → all_alnum a = true →
            r ≠ EmptyString → contains newline r = false →
            HasOrderPrefix (a +:+ String dot r)%string = true ∧
            StripOrderPrefix (a +:+ String dot r)%string = Some r) as Hfwd.
  { intros a r Ha Hal Hr Hnl.
    assert (xre_MatchString (a +:+ String dot r)%string = true) as Hm.
    { unfold xre_MatchString. rewrite span_alnum_app by done.
      destruct a as [|c a]; [done|]. rewrite Ascii.eqb_refl, Hnl.
      apply String.eqb_neq in Hr. by rewrite Hr. }
    split; [done|]. unfold StripOrderPrefix. rewrite Hm.
    rewrite Index_dot_app by done. unfold slice_from_int.
    destruct (Z.ltb_spec (Z.of_nat (String.length a) + 1) 0); [lia|].
    replace (Z.to_nat (Z.of_nat (String.length a) + 1))
      with (String.length a + 1)%nat by lia.
    apply slice_from_app. }
  split; [done|]. split; [|split].
  - intros s Hs. unfold HasOrderPrefix, xre_MatchString in Hs.
    destruct (span_alnum s) as [a rest] eqn:Hsp.
    destruct a as [|c a]; [done|]. destruct rest as [|d r]; [done|].
    apply andb_prop in Hs as [Hs Hnl]. apply andb_prop in Hs as [Hd Hr].
    apply Ascii.eqb_eq in Hd as ->.
    apply negb_true_iff in Hnl. apply negb_true_iff, String.eqb_neq in Hr.
    destruct (span_alnum_split s _ _ Hsp) as [-> Hal].
    exists (String c a), r. repeat split; try done.
    by apply Hfwd.
  - intros s Hs. unfold StripOrderPrefix. unfold HasOrderPrefix in Hs.
    by rewrite Hs.
  - intros s Hs. unfold IsDigitHeavy in Hs. apply andb_prop in Hs as [_ Hd].
    assert (xre_MatchString s = false) as Hm.
    { unfold xre_MatchString.
      rewrite span_alnum_all by (by apply all_digits_alnum). by destruct s. }
    split; [done|]. unfold StripOrderPrefix. by rewrite Hm.
Qed.

Lemma StripOrderPrefix_spec_witness :
  "0001" ≠ EmptyString ∧ all_alnum "0001" = true ∧
  "Tools here" ≠ EmptyString ∧ contains newline "Tools here" = false ∧
  StripOrderPrefix "0001.Tools here" = Some "Tools here".
Proof.
  split; [done|]. split; [done|]. split; [done|]. split; [done|].
  by apply (proj1 StripOrderPrefix_spec "0001" "Tools here").
Defined.

End ToolFacts.

Lemma stripPrefix_spec_witness :
  HasPrefix "app.debug" "app." = true ∧
  ∃ r, Tool.stripPrefix "app.debug" "app." = Some r ∧ "app.debug" = ("app." +:+ r)%string.
Proof.
  split; [done|].
  destruct (proj1 (ToolFacts.stripPrefix_spec "app.debug" "app.")) as (r & Hr & Hs & _).
  exists r. split; [done|]. by apply Hs.
Defined.

(** * Layout helpers of the help screen *)

Module PrintFacts.
Import Print.

Lemma findMaxL_app (l1 l2 : list aSection) (m : Z) :
  findMaxL (l1 ++ l2) m = findMaxL l2 (findMaxL l1 m).
Proof. unfold findMaxL. apply fold_left_app. Qed.

Lemma findMaxL_cons (s : aSection) (l : list aSection) (m : Z) :
  findMaxL (s :: l) m = findMaxL l (Z.max m (maxL s)).
Proof.
  unfold findMaxL. simpl. f_equal.
  destruct (Z.gtb_spec (maxL s) m); lia.
Qed.

(** X22. [findMaxL] returns the largest of the starting width and the
    left widths of the sections: it is not below the starting width nor
    below any section, and it is the starting width or the width of one
    of the sections. *)
Theorem findMaxL_is_max (s1 : list aSection) (maxL0 : Z) :
  (maxL0 ≤ findMaxL s1 maxL0)%Z ∧
  Forall (fun s => (maxL s ≤ findMaxL s1 maxL0)%Z) s1 ∧
  (findMaxL s1 maxL0 = maxL0 ∨ ∃ s, s ∈ s1 ∧ findMaxL s1 maxL0 = maxL s).
Proof.
  revert maxL0. induction s1 as [|s l IH]; intros m.
  - split; [done|]. split; [constructor|by left].
  - rewrite findMaxL_cons. destruct (IH (Z.max m (maxL s))) as (H1 & H2 & H3).
    split; [lia|]. split; [constructor; [lia|done]|].
    destruct H3 as [H3|(s' & Hin & H3)].
    + destruct (Z.max_spec m (maxL s)) as [[_ Hm]|[_ Hm]]; rewrite H3, Hm.
      * right. exists s. split; [left|done].
      * by left.
    + right. exists s'. split; [by right|done].
Qed.

(** X23. [findMaxL2] on grouped sections is [findMaxL] on all their
    sections in a row, and [findMaxL] on two lists in a row is
    [findMaxL] on the second, started from the result on the first. *)
Theorem findMaxL2_flat (s2 : list aGroupedSections) (maxL0 : Z) :
  findMaxL2 s2 maxL0 = findMaxL (s2 ≫= sections) maxL0 ∧
  ∀ l1 l2, findMaxL (l1 ++ l2) maxL0 = findMaxL l2 (findMaxL l1 maxL0).
Proof.
  split; [|intros; apply findMaxL_app].
  revert maxL0. induction s2 as [|g s2 IH]; intros m; [done|].
  rewrite bind_cons, findMaxL_app, <- IH. reflexivity.
Qed.

#[local] Instance string_le_total : Total string_le.
Proof. intros a b. apply String.leb_total. Qed.

Section SortedKeysFacts.
Context {A : Type}.
Variable UnsortedGroup : string.

Lemma elem_of_range_keys (m : gmap string A) (k : string) :
  k ∈ range_keys m ↔ k ∈ dom m.
Proof.
  unfold range_keys. rewrite list_elem_of_fmap, elem_of_dom. split.
  - intros ([k' x] & -> & Hin). apply elem_of_map_to_list in Hin. by exists x.
  - intros [x Hx]. exists (k, x). split; [done|]. by apply elem_of_map_to_list.
Qed.

(** X24. The group keys for the help screen: the name of the unnamed
    group comes first, whether the map has that group or not, and is
    followed by every other key of the map exactly once, in the order of
    [sort.Strings]. *)
Theorem getSortedKeysFromCmdGroupedMap_spec (m : gmap string A) :
  ∃ rest, getSortedKeysFromCmdGroupedMap UnsortedGroup m = UnsortedGroup :: rest ∧
          Sorted string_le rest ∧ NoDup rest ∧
          (∀ k, k ∈ rest ↔ k ∈ dom m ∧ k ≠ UnsortedGroup).
Proof.
  eexists. split; [reflexivity|]. unfold sortStrings.
  split; [apply Sorted_merge_sort, _|]. split.
  - rewrite merge_sort_Permutation. apply NoDup_filter.
    apply NoDup_fst_map_to_list.
  - intros k. rewrite merge_sort_Permutation, list_elem_of_filter, elem_of_range_keys.
    tauto.
Qed.

(** X25. The command keys of one group: every key of the map exactly
    once, in the order of [sort.Strings]; as many keys as the map has
    entries. *)
Theorem getSortedKeysFromCmdMap_spec (groups : gmap string A) :
  Sorted string_le (getSortedKeysFromCmdMap groups) ∧
  NoDup (getSortedKeysFromCmdMap groups) ∧
  (∀ k, k ∈ getSortedKeysFromCmdMap groups ↔ k ∈ dom groups) ∧
  List.length (getSortedKeysFromCmdMap groups) = size groups.
Proof.
  unfold getSortedKeysFromCmdMap, sortStrings.
  split; [apply Sorted_merge_sort, _|]. split; [|split].
  - rewrite merge_sort_Permutation. apply NoDup_fst_map_to_list.
  - intros k. by rewrite merge_sort_Permutation, elem_of_range_keys.
  - rewrite merge_sort_Permutation. unfold range_keys.
    by rewrite length_fmap, length_map_to_list.
Qed.

End SortedKeysFacts.

End PrintFacts.

(** * Walking the command tree *)

Module WalkFacts.
Import Walk.

Lemma Command_nested_ind {P : Type} (Q : Command P → Prop) :
  (∀ payload subs, Forall Q subs → Q (mkCommand payload subs)) →
  ∀ c, Q c.
Proof.
  intros H. fix IH 1. intros [payload subs]. apply H.
  induction subs as [|c subs IHs]; constructor; [apply IH|exact IHs].
Qed.

Section WalkingFacts.
Context {P St Err : Type}.
Variable walk : Command P → Z → St → St * option Err.

Lemma walk_each_app (l1 l2 : list (Command P * Z)) (st : St) :
  walk_each walk (l1 ++ l2) st =
  match walk_each walk l1 st with
  | (st1, Some e) => (st1, Some e)
  | (st1, None) => walk_each walk l2 st1
  end.
Proof.
  revert st. induction l1 as [|[c ix] l1 IH]; intros st; [done|].
  simpl. destruct (walk c ix st) as [st1 [e|]]; [done|]. apply IH.
Qed.

Lemma walkFromCommand_walk_each (cmd : Command P) :
  ∀ index st,
    walkFromCommand walk cmd index st = walk_each walk (preorder cmd index) st.
Proof.
  induction cmd as [payload subs IH] using Command_nested_ind.
  intros index st. simpl.
  destruct (walk (mkCommand payload subs) index st) as [st1 [e|]]; [done|].
  generalize 0%Z. revert st1.
  induction IH as [|cc rest Hcc Hrest IHrest]; intros st1 ix; [done|].
  rewrite walk_each_app, <- Hcc.
  destruct (walkFromCommand walk cc ix st1) as [st2 [e|]]; [done|].
  apply IHrest.
Qed.

(** X26. [walkFromCommand] calls the callback on the command and then on
    everything below it, a command before its sub-commands, the
    sub-commands in their order and each with its place among its
    siblings as index, the states handed on from call to call; the
    first error ends the walk and is returned, with no call after it.
    An error of the callback on the command itself is returned before
    any sub-command is looked at. *)
Theorem walkFromCommand_preorder (cmd : Command P) (index : Z) (st : St) :
  walkFromCommand walk cmd index st = walk_each walk (preorder cmd index) st ∧
  (∀ st1 e, walk cmd index st = (st1, Some e) →
            walkFromCommand walk cmd index st = (st1, Some e)).
Proof.
  split; [apply walkFromCommand_walk_each|].
  intros st1 e He. destruct cmd as [payload subs]. simpl. by rewrite He.
Qed.

End WalkingFacts.

Lemma walkFromCommand_preorder_witness :
  let root := mkCommand "root" [mkCommand "sub" []] in
  let walk := fun (c : Command string) (ix : Z) (st : nat) => (S st, Some ix) in
  walk root 0%Z 0 = (1, Some 0%Z) ∧
  walkFromCommand walk root 0%Z 0 = (1, Some 0%Z).
Proof.
  intros root walk. split; [done|].
  by apply (proj2 (walkFromCommand_preorder walk root 0%Z 0)).
Defined.

(** X27. With a callback that never fails and writes down what it is
    called on, [WalkAllCommands] returns no error and has written down
    the root with index 0 and then the whole tree in pre-order. *)
Theorem WalkAllCommands_visits_all {P : Type} (root : Command P)
    (seen : list (Command P * Z)) :
  WalkAllCommands (Err := unit) (fun c ix st => (st ++ [(c, ix)], None)) root seen
  = (seen ++ preorder root 0%Z, None).
Proof.
  unfold WalkAllCommands. rewrite walkFromCommand_walk_each.
  generalize (preorder root 0%Z). intros l. revert seen.
  induction l as [|[c ix] l IH]; intros seen; simpl.
  - by rewrite app_nil_r.
  - by rewrite IH, <- app_assoc.
Qed.

End WalkFacts.
